(** * PL execution engine: a shallow embedding of [pl/eval.go],
    [pl/obj_pair.go] and [pl/mod_query.go], with the properties of the
    evaluator stated and proved over it.

    Conventions of the embedding.
    - Go [int] and [int64] are [Z]; arithmetic that can overflow is wrapped
      with [wrap64] (two's complement, as Go defines signed overflow).
    - Go [float64] is the primitive binary64 [float] of the kernel.
    - A Go slice is a [list] with index 0 first: the value stack grows at the
      end of the list, as [append] does.
    - A Go [(Val, error)] result is a [Res Val]; a run-time panic of the host
      (a failed [must], an index out of range, [log.Fatalf]) is [Fault].
    - Loops whose trip count is not bounded by the data take a [fuel : nat];
      running out of it is [None] / [OutOfFuel]. *)

From Stdlib Require Import ZArith List String Bool Lia Floats.
Import ListNotations.
Open Scope string_scope.
Open Scope Z_scope.

Set Warnings "-register-all".

(* ------------------------------------------------------------------------- *)
(** ** Machine integers *)

Module Int64.

Definition min_int : Z := - 2 ^ 63.
Definition max_int : Z := 2 ^ 63 - 1.

Definition in_range (z : Z) : Prop := min_int <= z <= max_int.

(** Two's-complement wrap-around of a mathematical integer to 64 bits. *)
Definition wrap64 (z : Z) : Z := (z + 2 ^ 63) mod 2 ^ 64 - 2 ^ 63.

(** Go's [/] and [%] truncate toward zero. *)
Definition quot (a b : Z) : Z := wrap64 (Z.quot a b).
Definition rem (a b : Z) : Z := wrap64 (Z.rem a b).

(** [float64(i)]: the integer rounded to the nearest binary64. *)
Definition to_float (z : Z) : float :=
  SF2Prim (binary_normalize prec emax z 0 false).

End Int64.
Import Int64.

(* ------------------------------------------------------------------------- *)
(** ** [powI] (eval.go, lines 562-572)

    [for i = 2; i <= m; i++ { result *= n }] with [i], [m], [n] and [result]
    all [int64]: both the product and the counter wrap. *)

Fixpoint powI_loop (fuel : nat) (n m i result : Z) : option Z :=
  match fuel with
  | O => None
  | S fuel' =>
      if i <=? m
      then powI_loop fuel' n m (wrap64 (i + 1)) (wrap64 (result * n))
      else Some result
  end.

Definition powI (fuel : nat) (n m : Z) : option Z :=
  if m =? 0 then Some 1 else powI_loop fuel n m 2 n.

(* ------------------------------------------------------------------------- *)
(** ** Results *)

(** The outcome of a Go function returning [(A, error)]. [Err] is a returned
    [error], [Fault] a run-time panic, [OutOfFuel] a loop of the model that was
    cut short. *)
Inductive Res (A : Type) : Type :=
| Ok (a : A)
| Err (msg : string)
| Fault (why : string)
| OutOfFuel.

Arguments Ok {A} a.
Arguments Err {A} msg.
Arguments Fault {A} why.
Arguments OutOfFuel {A}.

Definition bind {A B : Type} (r : Res A) (k : A -> Res B) : Res B :=
  match r with
  | Ok a => k a
  | Err m => Err m
  | Fault w => Fault w
  | OutOfFuel => OutOfFuel
  end.

Notation "'let*' x ':=' r 'in' k" := (bind r (fun x => k))
  (at level 10, x pattern, r at level 100, k at level 200).

Definition isErr {A} (r : Res A) : bool :=
  match r with Err _ => true | _ => false end.

(* ------------------------------------------------------------------------- *)
(** ** Bytecode and programs

    The opcodes interpreted by this development. Host-dependent opcodes
    (actions, variables, templates, configuration, globals, closures,
    iterators, intrinsic and virtual calls, container mutation, regular
    expressions) are outside it. *)

Inductive opcode : Type :=
| bcAdd | bcSub | bcMul | bcDiv | bcMod | bcPow
| bcLt | bcLe | bcGt | bcGe | bcEq | bcNe
| bcNot | bcNegate
| bcOr | bcAnd
| bcSwap | bcPop | bcDup1 | bcDup2
| bcJfalse | bcJtrue | bcTernary | bcJump | bcFilter
| bcLoadInt | bcLoadReal | bcLoadStr | bcLoadTrue | bcLoadFalse | bcLoadNull
| bcNewPair
| bcSCall | bcReturn
| bcReserveLocal | bcStoreLocal | bcLoadLocal
| bcSetSession | bcLoadSession | bcStoreSession
| bcPushException | bcPopException | bcLoadException
| bcLoadDollar
| bcHalt | bcNextRule | bcYield | bcEmit.

Record bytecode : Type := BC { opcode_of : opcode; argument : Z }.

Inductive progtype_t : Type :=
| progRule | progFunc | progIter | progConfig | progSession | progGlobal.

(** Modelled from the spec: the declaration of [program], which is not among
    the sources; "Immutable record: name, kind (rule, function, iterator,
    config, session, global), parameter arity, local count, bytecode array,
    ...". The fields are the ones eval.go reads ([name], [progtype],
    [argSize], [localSize], [bcList]) and the constant pools behind [idxInt],
    [idxReal] and [idxStr]. *)
Record program : Type := {
  name : string;
  progtype : progtype_t;
  argSize : Z;
  localSize : Z;
  bcList : list bytecode;
  intTable : list Z;
  realTable : list float;
  strTable : list string
}.

(* ------------------------------------------------------------------------- *)
(** ** Frames and values *)

Inductive ftype_t : Type :=
| ftypeTop | ftypeScript | ftypeIntrinsic | ftypeRule
| ftypeMethod | ftypeSFunc | ftypeNFunc | ftypeSIter.

Definition ftype_eqb (a b : ftype_t) : bool :=
  match a, b with
  | ftypeTop, ftypeTop | ftypeScript, ftypeScript
  | ftypeIntrinsic, ftypeIntrinsic | ftypeRule, ftypeRule
  | ftypeMethod, ftypeMethod | ftypeSFunc, ftypeSFunc
  | ftypeNFunc, ftypeNFunc | ftypeSIter, ftypeSIter => true
  | _, _ => false
  end.

Record exception : Type := {
  handlerPc : Z;
  stackSize_of : Z
}.

(** [funcframe]. The [closure] is an opaque handle; the [event] field, which
    eval.go only ever resets in [markTop], is left out. *)
Record funcframe : Type := {
  ftype : ftype_t;
  farg : Z;
  pc_of : Z;
  framep : Z;
  prog_of : option program;
  excep : list exception;
  closure : option nat
}.

Inductive ValType : Type :=
| ValNull | ValInt | ValReal | ValBool | ValStr | ValRegexp | ValPair
| ValList | ValMap | ValIter | ValClosure | ValUsr | ValFrame.

Definition ValType_eqb (a b : ValType) : bool :=
  match a, b with
  | ValNull, ValNull | ValInt, ValInt | ValReal, ValReal | ValBool, ValBool
  | ValStr, ValStr | ValRegexp, ValRegexp | ValPair, ValPair
  | ValList, ValList | ValMap, ValMap | ValIter, ValIter
  | ValClosure, ValClosure | ValUsr, ValUsr | ValFrame, ValFrame => true
  | _, _ => false
  end.

(** Modelled from the spec: the declaration of [Val], which is not among the
    sources; "Tagged variants (null, int, real, bool, string, regex, pair,
    list, map, iterator, closure, user-object, internal frame marker)".
    Regular expressions, iterators, closures and user objects are carried as
    opaque payloads. *)
Inductive Val : Type :=
| VNull
| VInt (i : Z)
| VReal (r : float)
| VBool (b : bool)
| VStr (s : string)
| VRegexp (src : string)
| VPair (first second : Val)
| VList (data : list Val)
| VMap (entries : list (string * Val))
| VIter (h : nat)
| VClosure (h : nat)
| VUsr (h : nat)
| VFrame (ff : funcframe).

Definition Type_ (v : Val) : ValType :=
  match v with
  | VNull => ValNull | VInt _ => ValInt | VReal _ => ValReal
  | VBool _ => ValBool | VStr _ => ValStr | VRegexp _ => ValRegexp
  | VPair _ _ => ValPair | VList _ => ValList | VMap _ => ValMap
  | VIter _ => ValIter | VClosure _ => ValClosure | VUsr _ => ValUsr
  | VFrame _ => ValFrame
  end.

(** Modelled from the spec: the tag tests of val.go. *)
Definition IsInt (v : Val) : bool := ValType_eqb (Type_ v) ValInt.
(** Modelled from the spec: the tag tests of val.go. *)
Definition IsReal (v : Val) : bool := ValType_eqb (Type_ v) ValReal.
(** Modelled from the spec: the tag tests of val.go. *)
Definition IsString (v : Val) : bool := ValType_eqb (Type_ v) ValStr.
(** Modelled from the spec: the tag tests of val.go. *)
Definition IsNumber (v : Val) : bool := IsInt v || IsReal v.

(** The methods of [Val] and the library functions that eval.go calls and that
    are defined outside the sources at hand: [Val.ToBoolean], [Val.ToString],
    [Val.ToIndex] and Go's [math.Pow]. Everything below is stated for an
    arbitrary implementation of them. *)
Class Extern : Type := {
  ToBoolean : Val -> bool;
  ToString : Val -> Res string;
  ToIndex : Val -> Res Z;
  math_Pow : float -> float -> float
}.

(** [mustReal]; it is only reached with a numeric operand. *)
Definition mustReal (x : Val) : float :=
  match x with
  | VInt i => to_float i
  | VReal r => r
  | _ => nan
  end.

(* ------------------------------------------------------------------------- *)
(** ** [doBin] and [doNegate] (eval.go, lines 575-794) *)

Section Binary.
Context {X : Extern}.

(** The shape shared by [-], [*], [/], [**]: same tag first, then mixed
    numeric, else the error of the operator. *)
Definition doBin (fuel : nat) (lhs rhs : Val) (op : opcode) : Res Val :=
  match op with
  | bcSub =>
      if ValType_eqb (Type_ lhs) (Type_ rhs) then
        match lhs, rhs with
        | VInt a, VInt b => Ok (VInt (wrap64 (a - b)))
        | VReal a, VReal b => Ok (VReal (PrimFloat.sub a b))
        | _, _ => Err "invalid operand for -"
        end
      else if IsNumber lhs && IsNumber rhs then
        Ok (VReal (PrimFloat.sub (mustReal lhs) (mustReal rhs)))
      else Err "invalid operand for -"

  | bcMul =>
      if ValType_eqb (Type_ lhs) (Type_ rhs) then
        match lhs, rhs with
        | VInt a, VInt b => Ok (VInt (wrap64 (a * b)))
        | VReal a, VReal b => Ok (VReal (PrimFloat.mul a b))
        | _, _ => Err "invalid operand for *"
        end
      else if IsNumber lhs && IsNumber rhs then
        Ok (VReal (PrimFloat.mul (mustReal lhs) (mustReal rhs)))
      else Err "invalid operand for *"

  | bcPow =>
      if ValType_eqb (Type_ lhs) (Type_ rhs) then
        match lhs, rhs with
        | VInt a, VInt b =>
            match powI fuel a b with
            | Some r => Ok (VInt r)
            | None => OutOfFuel
            end
        | VReal a, VReal b => Ok (VReal (math_Pow a b))
        | _, _ => Err "invalid operand for *"
        end
      else if IsNumber lhs && IsNumber rhs then
        Ok (VReal (math_Pow (mustReal lhs) (mustReal rhs)))
      else Err "invalid operand for *"

  | bcMod =>
      if ValType_eqb (Type_ lhs) (Type_ rhs) then
        match lhs, rhs with
        | VInt a, VInt b =>
            if b =? 0 then Err "divide zero"
            else Ok (VInt (Int64.rem a b))
        | _, _ => Err "invalid operand for *"
        end
      else Err "invalid operand for *"

  | bcDiv =>
      if ValType_eqb (Type_ lhs) (Type_ rhs) then
        match lhs, rhs with
        | VInt a, VInt b =>
            if b =? 0 then Err "divide zero"
            else Ok (VInt (Int64.quot a b))
        | VReal a, VReal b => Ok (VReal (PrimFloat.div a b))
        | _, _ => Err "invalid operand for *"
        end
      else if IsNumber lhs && IsNumber rhs then
        Ok (VReal (PrimFloat.div (mustReal lhs) (mustReal rhs)))
      else Err "invalid operand for *"

  | bcAdd =>
      if ValType_eqb (Type_ lhs) (Type_ rhs) then
        match lhs, rhs with
        | VInt a, VInt b => Ok (VInt (wrap64 (a + b)))
        | VReal a, VReal b => Ok (VReal (PrimFloat.add a b))
        | VStr a, VStr b => Ok (VStr (a ++ b))
        | _, _ => Err "invalid operator for +"
        end
      else if IsNumber lhs && IsNumber rhs then
        Ok (VReal (PrimFloat.add (mustReal lhs) (mustReal rhs)))
      else if IsString lhs || IsString rhs then
        match ToString lhs with
        | Ok lhsStr =>
            match ToString rhs with
            | Ok rhsStr => Ok (VStr (lhsStr ++ rhsStr))
            | Err _ => Err "invalid operator for +"
            | Fault w => Fault w
            | OutOfFuel => OutOfFuel
            end
        | Err _ => Err "invalid operator for +"
        | Fault w => Fault w
        | OutOfFuel => OutOfFuel
        end
      else Err "invalid operator for +"

  | bcEq =>
      if ValType_eqb (Type_ lhs) (Type_ rhs) then
        match lhs, rhs with
        | VInt a, VInt b => Ok (VBool (a =? b))
        | VReal a, VReal b => Ok (VBool (PrimFloat.eqb a b))
        | VStr a, VStr b => Ok (VBool (String.eqb a b))
        | _, _ => Err "invalid operand for =="
        end
      else if IsNumber lhs && IsNumber rhs then
        Ok (VBool (PrimFloat.eqb (mustReal lhs) (mustReal rhs)))
      else Err "invalid operand for =="

  | bcNe =>
      if ValType_eqb (Type_ lhs) (Type_ rhs) then
        match lhs, rhs with
        | VInt a, VInt b => Ok (VBool (negb (a =? b)))
        | VReal a, VReal b => Ok (VBool (negb (PrimFloat.eqb a b)))
        | VStr a, VStr b => Ok (VBool (negb (String.eqb a b)))
        | _, _ => Err "invalid operand for !="
        end
      else if IsNumber lhs && IsNumber rhs then
        Ok (VBool (negb (PrimFloat.eqb (mustReal lhs) (mustReal rhs))))
      else Err "invalid operand for !="

  | bcLt =>
      if ValType_eqb (Type_ lhs) (Type_ rhs) then
        match lhs, rhs with
        | VInt a, VInt b => Ok (VBool (a <? b))
        | VReal a, VReal b => Ok (VBool (PrimFloat.ltb a b))
        | VStr a, VStr b => Ok (VBool (String.ltb a b))
        | _, _ => Err "invalid operand for <"
        end
      else if IsNumber lhs && IsNumber rhs then
        Ok (VBool (PrimFloat.ltb (mustReal lhs) (mustReal rhs)))
      else Err "invalid operand for <"

  | bcLe =>
      if ValType_eqb (Type_ lhs) (Type_ rhs) then
        match lhs, rhs with
        | VInt a, VInt b => Ok (VBool (a <=? b))
        | VReal a, VReal b => Ok (VBool (PrimFloat.leb a b))
        | VStr a, VStr b => Ok (VBool (String.leb a b))
        | _, _ => Err "invalid operand for <="
        end
      else if IsNumber lhs && IsNumber rhs then
        Ok (VBool (PrimFloat.leb (mustReal lhs) (mustReal rhs)))
      else Err "invalid operand for <="

  | bcGt =>
      if ValType_eqb (Type_ lhs) (Type_ rhs) then
        match lhs, rhs with
        | VInt a, VInt b => Ok (VBool (b <? a))
        | VReal a, VReal b => Ok (VBool (PrimFloat.ltb b a))
        | VStr a, VStr b => Ok (VBool (String.ltb b a))
        | _, _ => Err "invalid operand for >"
        end
      else if IsNumber lhs && IsNumber rhs then
        Ok (VBool (PrimFloat.ltb (mustReal rhs) (mustReal lhs)))
      else Err "invalid operand for >"

  | bcGe =>
      if ValType_eqb (Type_ lhs) (Type_ rhs) then
        match lhs, rhs with
        | VInt a, VInt b => Ok (VBool (b <=? a))
        | VReal a, VReal b => Ok (VBool (PrimFloat.leb b a))
        | VStr a, VStr b => Ok (VBool (String.leb b a))
        | _, _ => Err "invalid operand for >="
        end
      else if IsNumber lhs && IsNumber rhs then
        Ok (VBool (PrimFloat.leb (mustReal rhs) (mustReal lhs)))
      else Err "invalid operand for >="

  | _ => Fault "unreachable: binary operator"
  end.

Definition doNegate (v : Val) : Res Val :=
  match v with
  | VInt i => Ok (VInt (wrap64 (- i)))
  | VReal r => Ok (VReal (PrimFloat.opp r))
  | _ => Err "invalid operand for !"
  end.

End Binary.

(** The six arithmetic opcodes. *)
Definition arith_op (op : opcode) : bool :=
  match op with
  | bcAdd | bcSub | bcMul | bcDiv | bcMod | bcPow => true
  | _ => false
  end.


(* ------------------------------------------------------------------------- *)
(** ** Pairs (obj_pair.go) *)

Record Pair : Type := { First : Val; Second : Val }.

(** [Val.Pair()] and [NewValPair]. *)
Definition Pair_of (v : Val) : option Pair :=
  match v with
  | VPair a b => Some {| First := a; Second := b |}
  | _ => None
  end.

Definition NewValPair (a b : Val) : Val := VPair a b.

(** [PairIter]: the pair iterated and the position. *)
Record PairIter : Type := { p_of : Pair; cnt : Z }.

Module ObjPair.
Section WithExtern.
Context {X : Extern}.

Definition SetUp (it : PairIter) (args : list Val) : Res unit := Ok tt.

Definition Has (it : PairIter) : bool := cnt it <? 2.

(** [p.cnt++; return p.Has(), nil]: the advanced iterator and the answer. *)
Definition Next (it : PairIter) : PairIter * Res bool :=
  let it' := {| p_of := p_of it; cnt := wrap64 (cnt it + 1) |} in
  (it', Ok (Has it')).

Definition Deref (it : PairIter) : Res (Val * Val) :=
  if cnt it =? 0 then Ok (VInt 0, First (p_of it))
  else if cnt it =? 1 then Ok (VInt 1, Second (p_of it))
  else Err "iterator out of bound".

Definition NewIter (p : Pair) : PairIter := {| p_of := p; cnt := 0 |}.

Definition Index (p : Pair) (idx : Val) : Res Val :=
  let* i := ToIndex idx in
  if i =? 0 then Ok (First p)
  else if i =? 1 then Ok (Second p)
  else Err "invalid index, 0 or 1 is allowed on Pair".

(** The setters return the pair as the assignment leaves it. *)
Definition IndexSet (p : Pair) (idx val : Val) : Res Pair :=
  let* i := ToIndex idx in
  if i =? 0 then Ok {| First := val; Second := Second p |}
  else if i =? 1 then Ok {| First := First p; Second := val |}
  else Err "invalid index, 0 or 1 is allowed on Pair".

Definition Dot (p : Pair) (i : string) : Res Val :=
  if String.eqb i "first" then Ok (First p)
  else if String.eqb i "second" then Ok (Second p)
  else Err "invalid field name, 'first'/'second' is allowed on Pair".

Definition DotSet (p : Pair) (i : string) (val : Val) : Res Pair :=
  if String.eqb i "first" then Ok {| First := val; Second := Second p |}
  else if String.eqb i "second" then Ok {| First := First p; Second := val |}
  else Err "invalid field name, 'first'/'second' is allowed on Pair".

(** The consumer's side of the iterator protocol, as the compiled [for]
    loop drives it: while [Has], [Deref] the current entry, then [Next]. *)
Fixpoint iterate (fuel : nat) (it : PairIter) : Res (list (Val * Val)) :=
  match fuel with
  | O => OutOfFuel
  | S fuel' =>
      if Has it then
        let* kv := Deref it in
        let* _ := snd (Next it) in
        let* rest := iterate fuel' (fst (Next it)) in
        Ok (kv :: rest)
      else Ok []
  end.

End WithExtern.
End ObjPair.

(* ------------------------------------------------------------------------- *)
(** ** Queries (mod_query.go)

    The intrinsics are modelled after [info.Check(args)] has accepted the
    arguments: the list receiver is the list of its elements, and the
    selectors of [q::select], which the signature [{%l%d*}] restricts to ints,
    are their int values. *)

(** [Val.Int()], read only on values that carry an int. *)
Definition Int_ (v : Val) : Z :=
  match v with VInt i => i | _ => 0 end.

Definition at_ {A} (l : list A) (i : Z) : option A :=
  if i <? 0 then None else nth_error l (Z.to_nat i).

Definition len {A} (l : list A) : Z := Z.of_nat (List.length l).

(** [qSelect], list branch: [l.Data[idx]] faults when [idx] is no index. *)
Fixpoint qSelect_loop (l : list Val) (sel : list Z) (o : list Val)
  : Res (list Val) :=
  match sel with
  | [] => Ok o
  | idx :: sel' =>
      if (0 <=? idx) && (idx <=? len l) then
        match at_ l idx with
        | Some x => qSelect_loop l sel' (o ++ [x])%list
        | None => Fault "index out of range"
        end
      else qSelect_loop l sel' o
  end.

Definition qSelect (l : list Val) (sel : list Z) : Res Val :=
  let* o := qSelect_loop l sel [] in Ok (VList o).

Inductive aggkind : Type := isint | isreal | isnone.

Fixpoint firstNum_from (data : list Val) (idx : Z) : Z * float * aggkind * Z :=
  match data with
  | [] => (0, 0%float, isnone, -1)
  | v :: rest =>
      match v with
      | VInt i => (i, 0%float, isint, idx)
      | VReal r => (0, r, isreal, idx)
      | _ => firstNum_from rest (idx + 1)
      end
  end.

Definition firstNum (l : list Val) : Z * float * aggkind * Z :=
  firstNum_from l 0.

(** A joiner is a Go closure; the variables it captures and updates
    ([avg] in [qAvg], [count] in [qCount]) are the state [S] threaded here. *)
Definition joiner_t (S : Type) : Type :=
  Z -> Z -> float -> float -> aggkind -> S -> (Z * float * aggkind) * S.

Fixpoint qagg_int {S} (joiner : joiner_t S) (data : list Val)
  (current : Z) (s : S) : Res (Z * S) :=
  match data with
  | [] => Ok (current, s)
  | v :: rest =>
      match v with
      | VInt vv =>
          match joiner current vv 0%float 0%float isint s with
          | ((a, _, isint), s') => qagg_int joiner rest a s'
          | _ => Fault "must be int"
          end
      | _ => qagg_int joiner rest current s
      end
  end.

Fixpoint qagg_real {S} (joiner : joiner_t S) (data : list Val)
  (current : float) (s : S) : Res (float * S) :=
  match data with
  | [] => Ok (current, s)
  | v :: rest =>
      match v with
      | VReal vv =>
          match joiner 0 0 current vv isreal s with
          | ((_, b, isreal), s') => qagg_real joiner rest b s'
          | _ => Fault "must be real"
          end
      | _ => qagg_real joiner rest current s
      end
  end.

(** [l.Data[idx+1:]] *)
Definition slice_from {A} (l : list A) (i : Z) : list A := skipn (Z.to_nat i) l.

Definition qagg {S} (l : list Val) (joiner : joiner_t S) (s : S)
  : Res (Z * float * aggkind * S) :=
  let '(ival, rval, t, idx) := firstNum l in
  match t with
  | isint =>
      let* (current, s') := qagg_int joiner (slice_from l (idx + 1)) ival s in
      Ok (current, 0%float, isint, s')
  | isreal =>
      let* (current, s') := qagg_real joiner (slice_from l (idx + 1)) rval s in
      Ok (0, current, isreal, s')
  | isnone => Ok (0, 0%float, isnone, s)
  end.

Definition qaggret (i : Z) (r : float) (t : aggkind) : Res Val :=
  match t with
  | isnone => Ok VNull
  | isint => Ok (VInt i)
  | isreal => Ok (VReal r)
  end.

Definition qMax (l : list Val) : Res Val :=
  let* (ival, rval, t, _) :=
    qagg l (fun iprev icur rprev rcur t (s : unit) =>
              match t with
              | isint => if iprev <? icur then ((icur, 0%float, isint), s)
                         else ((iprev, 0%float, isint), s)
              | _ => if PrimFloat.ltb rprev rcur then ((0, rcur, isreal), s)
                     else ((0, rprev, isreal), s)
              end) tt in
  qaggret ival rval t.

Definition qSum (l : list Val) : Res Val :=
  let* (ival, rval, t, _) :=
    qagg l (fun iprev icur rprev rcur t (s : unit) =>
              match t with
              | isint => ((wrap64 (iprev + icur), 0%float, isint), s)
              | _ => ((0, PrimFloat.add rprev rcur, isreal), s)
              end) tt in
  qaggret ival rval t.

Record qavginfo : Type := { count : Z; rtt : float; itt : Z }.

Definition qAvg (l : list Val) : Res Val :=
  let* (_, _, t, avg) :=
    qagg l (fun _ icur _ rcur t (avg : qavginfo) =>
              let n := wrap64 (count avg + 1) in
              match t with
              | isint =>
                  ((0, 0%float, isint),
                   {| count := n; rtt := rtt avg; itt := wrap64 (itt avg + icur) |})
              | _ =>
                  ((0, 0%float, isreal),
                   {| count := n; rtt := PrimFloat.add (rtt avg) rcur; itt := itt avg |})
              end)
         {| count := 0; rtt := 0%float; itt := 0 |} in
  match t with
  | isnone => Ok VNull
  | isint => Ok (VReal (PrimFloat.div (to_float (itt avg)) (to_float (count avg))))
  | isreal => Ok (VReal (PrimFloat.div (rtt avg) (to_float (count avg))))
  end.

(** [qCount] starts its counter at one: the element [firstNum] consumed. *)
Definition qCount (l : list Val) : Res Val :=
  let* (_, _, t, count) :=
    qagg l (fun _ _ _ _ t (count : Z) => ((0, 0%float, t), wrap64 (count + 1))) 1 in
  match t with
  | isnone => Ok (VInt 0)
  | _ => Ok (VInt count)
  end.

(* ------------------------------------------------------------------------- *)
(** ** The evaluator (eval.go) *)

Inductive rstate_t : Type :=
| rstateInterrupt | rstateDone | rstateYield | rstateNextRule.

Record runresult : Type := {
  rr_prog : option program;
  rr_pc : Z;
  rr_e : option string;
  rstate : rstate_t
}.

Definition rrErr (p : option program) (pc : Z) (e : string) : runresult :=
  {| rr_prog := p; rr_pc := pc; rr_e := Some e; rstate := rstateInterrupt |}.
Definition rrNextRule (pc : Z) : runresult :=
  {| rr_prog := None; rr_pc := pc; rr_e := None; rstate := rstateNextRule |}.
Definition rrDone (pc : Z) : runresult :=
  {| rr_prog := None; rr_pc := pc; rr_e := None; rstate := rstateDone |}.
Definition rrYield (pc : Z) : runresult :=
  {| rr_prog := None; rr_pc := pc; rr_e := None; rstate := rstateYield |}.

Definition isDone (rr : runresult) : bool :=
  match rstate rr with rstateDone => true | _ => false end.
Definition isYield (rr : runresult) : bool :=
  match rstate rr with rstateYield => true | _ => false end.
Definition isNextRule (rr : runresult) : bool :=
  match rstate rr with rstateNextRule => true | _ => false end.

Definition EventContextContinue : Z := 0.
Definition EventContextPuase : Z := 1.
Definition EventContextStopAndClear : Z := 2.

(** [Evaluator]. [Context_] and [Config_] are opaque host handles ([None] is
    Go's [nil]); [Event] is the host's [OnEventError]; [eventQ] is the content
    of the default queue. *)
Record Evaluator : Type := {
  Stack : list Val;
  Session : list Val;
  Context_ : option nat;
  Config_ : option nat;
  Event : option (string -> string -> Z);
  curframe : funcframe;
  curexcep : Val;
  eventQ : list (string * Val);
  inEventQueue : bool
}.

Definition with_Stack (e : Evaluator) (s : list Val) : Evaluator :=
  {| Stack := s; Session := Session e; Context_ := Context_ e;
     Config_ := Config_ e; Event := Event e; curframe := curframe e;
     curexcep := curexcep e; eventQ := eventQ e;
     inEventQueue := inEventQueue e |}.
Definition with_Session (e : Evaluator) (s : list Val) : Evaluator :=
  {| Stack := Stack e; Session := s; Context_ := Context_ e;
     Config_ := Config_ e; Event := Event e; curframe := curframe e;
     curexcep := curexcep e; eventQ := eventQ e;
     inEventQueue := inEventQueue e |}.
Definition with_curframe (e : Evaluator) (f : funcframe) : Evaluator :=
  {| Stack := Stack e; Session := Session e; Context_ := Context_ e;
     Config_ := Config_ e; Event := Event e; curframe := f;
     curexcep := curexcep e; eventQ := eventQ e;
     inEventQueue := inEventQueue e |}.
Definition with_curexcep (e : Evaluator) (v : Val) : Evaluator :=
  {| Stack := Stack e; Session := Session e; Context_ := Context_ e;
     Config_ := Config_ e; Event := Event e; curframe := curframe e;
     curexcep := v; eventQ := eventQ e;
     inEventQueue := inEventQueue e |}.
Definition with_eventQ (e : Evaluator) (q : list (string * Val)) : Evaluator :=
  {| Stack := Stack e; Session := Session e; Context_ := Context_ e;
     Config_ := Config_ e; Event := Event e; curframe := curframe e;
     curexcep := curexcep e; eventQ := q;
     inEventQueue := inEventQueue e |}.
Definition with_inEventQueue (e : Evaluator) (b : bool) : Evaluator :=
  {| Stack := Stack e; Session := Session e; Context_ := Context_ e;
     Config_ := Config_ e; Event := Event e; curframe := curframe e;
     curexcep := curexcep e; eventQ := eventQ e;
     inEventQueue := b |}.

(** *** Frames *)

Definition topframe : funcframe :=
  {| ftype := ftypeTop; farg := 0; pc_of := 0; framep := 0;
     prog_of := None; excep := []; closure := None |}.

Definition markTop (e : Evaluator) : Evaluator := with_curframe e topframe.

Definition isTop (ff : funcframe) : bool := ftype_eqb (ftype ff) ftypeTop.

Definition isScript (ff : funcframe) : bool :=
  match prog_of ff with
  | Some _ => negb (ftype_eqb (ftype ff) ftypeSIter)
  | None => false
  end.

Definition with_pc (ff : funcframe) (pc : Z) : funcframe :=
  {| ftype := ftype ff; farg := farg ff; pc_of := pc; framep := framep ff;
     prog_of := prog_of ff; excep := excep ff; closure := closure ff |}.
Definition with_excep (ff : funcframe) (x : list exception) : funcframe :=
  {| ftype := ftype ff; farg := farg ff; pc_of := pc_of ff; framep := framep ff;
     prog_of := prog_of ff; excep := x; closure := closure ff |}.

(** *** Stack manipulation *)

Definition stackSize (e : Evaluator) : Z := len (Stack e).

Definition push (v : Val) (e : Evaluator) : Evaluator :=
  with_Stack e (Stack e ++ [v])%list.

(** [e.Stack[:n]] for [0 <= n <= len]. *)
Definition take {A} (n : Z) (l : list A) : list A := firstn (Z.to_nat n) l.

(** [popN]: the call sites of this development pass 1 or 2. *)
Definition popN (cnt : Z) (e : Evaluator) : Res Evaluator :=
  if (0 <=? cnt) && (cnt <=? stackSize e)
  then Ok (with_Stack e (take (stackSize e - cnt) (Stack e)))
  else Fault "invalid pop size".

Definition pop (e : Evaluator) : Res Evaluator := popN 1 e.

Definition popTo (size : Z) (e : Evaluator) : Res Evaluator :=
  if (0 <=? size) && (size <=? stackSize e)
  then Ok (with_Stack e (take size (Stack e)))
  else Fault "invalid popTo size".

Definition clearStack (e : Evaluator) : Evaluator := with_Stack e [].

Definition topN (where_ : Z) (e : Evaluator) : Res Val :=
  if where_ + 1 <=? stackSize e then
    match at_ (Stack e) (stackSize e - where_ - 1) with
    | Some v => Ok v
    | None => Fault "index out of range"
    end
  else Fault "invalid topN index".

Definition top0 (e : Evaluator) : Res Val := topN 0 e.
Definition top1 (e : Evaluator) : Res Val := topN 1 e.

(** [s[i] = v] *)
Fixpoint set_nth {A} (l : list A) (i : nat) (v : A) : option (list A) :=
  match l, i with
  | [], _ => None
  | _ :: t, O => Some (v :: t)
  | h :: t, S i' =>
      match set_nth t i' v with
      | Some t' => Some (h :: t')
      | None => None
      end
  end.

Definition set_at {A} (l : list A) (i : Z) (v : A) : option (list A) :=
  if i <? 0 then None else set_nth l (Z.to_nat i) v.

Definition localslot (arg : Z) (e : Evaluator) : Z :=
  framep (curframe e) + 1 + arg.

Definition prevframepos (e : Evaluator) : Z :=
  framep (curframe e) + farg (curframe e) + 1.

(** *** Exception records *)

Definition last_opt {A} (l : list A) : option A :=
  match rev l with
  | x :: _ => Some x
  | [] => None
  end.

Definition curExcep (e : Evaluator) : option exception :=
  last_opt (excep (curframe e)).

Definition pushExcep (pc : Z) (stackSize : Z) (e : Evaluator) : Evaluator :=
  with_curframe e
    (with_excep (curframe e)
       (excep (curframe e) ++ [{| handlerPc := pc; stackSize_of := stackSize |}])%list).

Definition popExcep (e : Evaluator) : Res Evaluator :=
  match excep (curframe e) with
  | [] => Fault "slice bounds out of range"
  | x => Ok (with_curframe e (with_excep (curframe e) (removelast x)))
  end.

(** *** Call frames *)

Definition prevfuncframe (e : Evaluator) : Res funcframe :=
  match at_ (Stack e) (prevframepos e) with
  | Some (VFrame ff) => Ok ff
  | Some _ => Fault "unknown stack, corrupted?"
  | None => Fault "index out of range"
  end.

Definition popfuncframe (prev : funcframe) (e : Evaluator)
  : Res (Z * option program * Evaluator) :=
  let* e1 := popTo (framep (curframe e)) e in
  Ok (pc_of prev - 1, prog_of prev, with_curframe e1 prev).

Definition prologue (ft : ftype_t) (alen : Z) (prog : option program)
  (cl : option nat) (e : Evaluator) : Evaluator :=
  let cf := curframe e in
  let newFV := VFrame (with_pc cf (pc_of cf + 1)) in
  let e1 := push newFV e in
  let fp := stackSize e1 - 2 - alen in
  with_curframe e1
    {| ftype := ft; farg := alen; pc_of := 0; framep := fp;
       prog_of := prog; excep := []; closure := cl |}.

(** [epilogue(v, false)] *)
Definition epilogue (v : Val) (e : Evaluator)
  : Res (Z * option program * Evaluator) :=
  let* prevcf := prevfuncframe e in
  let* (pc, prog, e1) := popfuncframe prevcf e in
  Ok (pc, prog, push v e1).

(** *** Events *)

(** Modelled from the spec: [defEventQueue.OnEvent], which is not among the
    sources; "an ordered queue of (eventName, context) entries; emit
    enqueues". *)
Definition OnEvent (name : string) (context : Val) (q : list (string * Val))
  : list (string * Val) := (q ++ [(name, context)])%list.

Definition emitEvent (name : string) (context : Val) (e : Evaluator)
  : Evaluator := with_eventQ e (OnEvent name context (eventQ e)).

(** Modelled from the spec: the declaration of [Module], which is not among
    the sources; "function table (ordered Programs indexable by integer), ...
    named event map (event-name -> ordered list of rule programs), optional
    config program, session program list, global program list". The global
    store is left out. *)
Record Module_ : Type := {
  fn : list program;
  config : option program;
  session : list program;
  globalProgram : list program;
  eventMap : list (string * list program)
}.

(* ------------------------------------------------------------------------- *)
(** ** The interpreter loop [runP] (eval.go, lines 897-1705) *)

(** How one pass through the [switch] leaves the loop. *)
Inductive Step : Type :=
| Break (prog : program) (pc : Z) (e : Evaluator)
    (** [break]: the [for] statement then performs [pc++] *)
| Func (prog : program) (e : Evaluator)
    (** [pc = 0; goto FUNC] *)
| Return (rr : runresult) (e : Evaluator).
    (** [return rr] *)

Section Interpreter.
Context {X : Extern}.

(** [e.curevent()] *)
Definition curevent (e : Evaluator) : Res Val :=
  match prog_of (curframe e) with
  | None => Fault "nil pointer dereference"
  | Some p =>
      match progtype p with
      | progRule =>
          match at_ (Stack e) (framep (curframe e) + 1) with
          | Some v => Ok v
          | None => Fault "index out of range"
          end
      | _ => Fault "must be rule"
      end
  end.

Definition jump_if (c : bool) (prog : program) (pc target : Z) (e : Evaluator)
  : Res Step :=
  if c then Ok (Break prog (target - 1) e) else Ok (Break prog pc e).

(** One pass through the [switch] at [prog.bcList[pc]]. [fuel] bounds the
    loop of [powI]. The assertion [must(prog.freeCall())] of [bcSCall], on
    the compiler's output, is not represented. *)
Definition step (fuel : nat) (m : Module_) (prog : program) (pc : Z)
  (e : Evaluator) : Res Step :=
  match at_ (bcList prog) pc with
  | None => Fault "index out of range"
  | Some bc =>
    let arg := argument bc in
    match opcode_of bc with
    | bcAdd | bcSub | bcMul | bcDiv | bcMod | bcPow
    | bcLt | bcLe | bcGt | bcGe | bcEq | bcNe =>
        let* lhs := top1 e in
        let* rhs := top0 e in
        let* e1 := popN 2 e in
        match doBin fuel lhs rhs (opcode_of bc) with
        | Ok v => Ok (Break prog pc (push v e1))
        | Err err => Ok (Return (rrErr (Some prog) pc err) e1)
        | Fault w => Fault w
        | OutOfFuel => OutOfFuel
        end

    | bcNot =>
        let* t := top0 e in
        let* e1 := pop e in
        Ok (Break prog pc (push (VBool (negb (ToBoolean t))) e1))

    | bcNegate =>
        let* t := top0 e in
        let* e1 := pop e in
        match doNegate t with
        | Ok v => Ok (Break prog pc (push v e1))
        | Err err => Ok (Return (rrErr (Some prog) pc err) e1)
        | Fault w => Fault w
        | OutOfFuel => OutOfFuel
        end

    | bcOr =>
        let* cond := top0 e in
        if ToBoolean cond then Ok (Break prog (arg - 1) e)
        else let* e1 := pop e in Ok (Break prog pc e1)

    | bcAnd =>
        let* cond := top0 e in
        if negb (ToBoolean cond) then Ok (Break prog (arg - 1) e)
        else let* e1 := pop e in Ok (Break prog pc e1)

    | bcSwap =>
        let sz := stackSize e in
        match at_ (Stack e) (sz - 1), at_ (Stack e) (sz - 2) with
        | Some a, Some b =>
            Ok (Break prog pc
                  (with_Stack e (take (sz - 2) (Stack e) ++ [a; b])%list))
        | _, _ => Fault "index out of range"
        end

    | bcPop =>
        let* e1 := pop e in Ok (Break prog pc e1)

    | bcDup1 =>
        let* tos := top0 e in Ok (Break prog pc (push tos e))

    | bcDup2 =>
        let* to1 := top1 e in
        let* to0 := top0 e in
        Ok (Break prog pc (push to0 (push to1 e)))

    | bcJfalse =>
        let* cond := top0 e in
        let* e1 := pop e in
        jump_if (negb (ToBoolean cond)) prog pc arg e1

    | bcJtrue =>
        let* cond := top0 e in
        let* e1 := pop e in
        jump_if (ToBoolean cond) prog pc arg e1

    | bcTernary =>
        let* cond := top0 e in
        let* e1 := pop e in
        if ToBoolean cond then Ok (Break prog (arg - 1) e1)
        else let* e2 := pop e1 in Ok (Break prog pc e2)

    | bcJump => Ok (Break prog (arg - 1) e)

    | bcFilter =>
        let* cond := top0 e in
        let* e1 := pop e in
        jump_if (negb (ToBoolean cond)) prog pc arg e1

    | bcLoadInt =>
        match at_ (intTable prog) arg with
        | Some i => Ok (Break prog pc (push (VInt i) e))
        | None => Fault "index out of range"
        end

    | bcLoadReal =>
        match at_ (realTable prog) arg with
        | Some r => Ok (Break prog pc (push (VReal r) e))
        | None => Fault "index out of range"
        end

    | bcLoadStr =>
        match at_ (strTable prog) arg with
        | Some s => Ok (Break prog pc (push (VStr s) e))
        | None => Fault "index out of range"
        end

    | bcLoadTrue => Ok (Break prog pc (push (VBool true) e))
    | bcLoadFalse => Ok (Break prog pc (push (VBool false) e))
    | bcLoadNull => Ok (Break prog pc (push VNull e))

    | bcNewPair =>
        let* t0 := top1 e in
        let* t1 := top0 e in
        let* e1 := popN 2 e in
        Ok (Break prog pc (push (NewValPair t0 t1) e1))

    | bcSCall =>
        let paramSize := arg in
        let* funcIndexOrEntry := topN paramSize e in
        match at_ (fn m) (Int_ funcIndexOrEntry) with
        | None => Fault "index out of range"
        | Some callee =>
            let e1 := with_curframe e (with_pc (curframe e) pc) in
            let e2 := prologue ftypeScript paramSize (Some callee) None e1 in
            if paramSize =? argSize callee
            then Ok (Func callee e2)
            else Ok (Return
                       (rrErr (Some callee) pc
                          "script function call, argument number mismatch")
                       e2)
        end

    | bcReturn =>
        let ft := ftype (curframe e) in
        let* rv := top0 e in
        let* (pc', prog', e1) := epilogue rv e in
        match prog' with
        | None => Ok (Return (rrDone pc') e1)
        | Some caller =>
            if ftype_eqb ft ftypeSIter then Ok (Return (rrDone pc') e1)
            else Ok (Break caller pc' e1)
        end

    | bcReserveLocal =>
        if 0 <? arg
        then Ok (Break prog pc
                   (with_Stack e (Stack e ++ repeat VNull (Z.to_nat arg))%list))
        else Ok (Break prog pc e)

    | bcStoreLocal =>
        let* v := top0 e in
        match set_at (Stack e) (localslot arg e) v with
        | Some s => let* e1 := pop (with_Stack e s) in Ok (Break prog pc e1)
        | None => Fault "index out of range"
        end

    | bcLoadLocal =>
        match at_ (Stack e) (localslot arg e) with
        | Some v => Ok (Break prog pc (push v e))
        | None => Fault "index out of range"
        end

    | bcSetSession =>
        let* ctx := top0 e in
        let* e1 := pop e in
        Ok (Break prog pc (with_Session e1 (Session e1 ++ [ctx])%list))

    | bcLoadSession =>
        if len (Session e) <=? arg
        then Ok (Return (rrErr (Some prog) pc "session variable is not existed") e)
        else
          match at_ (Session e) arg with
          | Some v => Ok (Break prog pc (push v e))
          | None => Fault "index out of range"
          end

    | bcStoreSession =>
        if len (Session e) <=? arg
        then Ok (Return (rrErr (Some prog) pc "session variable is not existed") e)
        else
          let* v := top0 e in
          match set_at (Session e) arg v with
          | Some s => let* e1 := pop (with_Session e s) in Ok (Break prog pc e1)
          | None => Fault "index out of range"
          end

    | bcPushException =>
        Ok (Break prog pc (pushExcep arg (stackSize e) e))

    | bcPopException =>
        let* e1 := popExcep e in Ok (Break prog (arg - 1) e1)

    | bcLoadException => Ok (Break prog pc (push (curexcep e) e))

    | bcLoadDollar =>
        let* ev := curevent e in Ok (Break prog pc (push ev e))

    | bcHalt => Ok (Return (rrDone pc) (push VNull e))

    | bcNextRule => Ok (Return (rrNextRule pc) e)

    | bcYield => Ok (Return (rrYield (pc + 1)) e)

    | bcEmit =>
        let* context := top0 e in
        let* name := top1 e in
        let* e1 := popN 2 e in
        match name with
        | VStr s => Ok (Break prog pc (emitEvent s context e1))
        | _ => Fault "event name must be string"
        end
    end
  end.

(** [FUNC: for ; ; pc++ { switch ... }] *)
Fixpoint runP (fuel : nat) (m : Module_) (prog : program) (pc : Z)
  (e : Evaluator) : Res (runresult * Evaluator) :=
  match fuel with
  | O => OutOfFuel
  | S fuel' =>
      let* s := step fuel' m prog pc e in
      match s with
      | Break prog' pc' e' => runP fuel' m prog' (pc' + 1) e'
      | Func prog' e' => runP fuel' m prog' 0 e'
      | Return rr e' => Ok (rr, e')
      end
  end.

End Interpreter.

(* ------------------------------------------------------------------------- *)
(** ** Unwinding (eval.go, lines 1709-1765) *)

Definition btlist : Type := list funcframe.

(** The loop of [unwindForExcep]; [bt] is the backtrace so far. The result is
    [(pc, prog, bt, caught)] and the evaluator. *)
Fixpoint unwind_loop (fuel : nat) (breaker : Evaluator -> bool) (err : string)
  (bt : btlist) (e : Evaluator)
  : Res (Z * option program * btlist * bool * Evaluator) :=
  match fuel with
  | O => OutOfFuel
  | S fuel' =>
      if isTop (curframe e) then Ok (-1, None, bt, false, e)
      else if breaker e then Ok (-1, None, bt, false, e)
      else
        let unwind_frame :=
          let* pframe := prevfuncframe e in
          let bt' := if negb (isTop pframe) then (bt ++ [pframe])%list else bt in
          let* (_, _, e1) := popfuncframe pframe e in
          unwind_loop fuel' breaker err bt' e1 in
        match curExcep e with
        | Some xp =>
            if isScript (curframe e) then
              let* e1 := popTo (stackSize_of xp) e in
              let pc := handlerPc xp in
              let prog := prog_of (curframe e1) in
              let e2 := with_curframe e1 (with_pc (curframe e1) pc) in
              let e3 := with_curexcep e2 (VStr err) in
              let* e4 := popExcep e3 in
              Ok (pc, prog, bt, true, e4)
            else unwind_frame
        | None => unwind_frame
        end
  end.

Definition unwindForExcep (fuel : nat) (breaker : Evaluator -> bool)
  (err : string) (e : Evaluator)
  : Res (Z * option program * btlist * bool * Evaluator) :=
  unwind_loop fuel breaker err [curframe e] e.

(* ------------------------------------------------------------------------- *)
(** ** Rules (eval.go, lines 1865-1957) *)

(** What an entry point reports: a plain [fmt.Errorf], or the error of a run
    as [doErr] decorates it (symbol, failing pc, cause, backtrace). *)
Inductive error : Type :=
| Errorf (msg : string)
| EvalErr (symbol : option string) (pc : Z) (cause : string) (bt : btlist).

Definition doErr (bt : btlist) (p : option program) (pc : Z) (err : string)
  : error :=
  match p with
  | Some p' => EvalErr (Some (name p')) pc err bt
  | None => EvalErr None pc err bt
  end.

Section Rules.
Context {X : Extern}.

(** The [RECOVER] loop of [runRuleImpl]: run, and after a caught error run
    again from the handler. [rounds] bounds the number of recoveries. *)
Fixpoint recover (rounds fuel : nat) (m : Module_) (prog : program) (pc : Z)
  (e : Evaluator) : Res (Val * option error * bool * Evaluator) :=
  match rounds with
  | O => OutOfFuel
  | S rounds' =>
      let* (rr, e1) := runP fuel m prog pc e in
      if isDone rr then
        let* ret := top0 e1 in
        let* e2 := pop e1 in
        Ok (ret, None, false, e2)
      else if isNextRule rr then Ok (VNull, None, true, e1)
      else
        match rr_e rr with
        | None => Fault "nil pointer dereference"
        | Some err =>
            let* (a, b, c, d, e2) :=
              unwindForExcep fuel (fun e' => isTop (curframe e')) err e1 in
            if d then
              match b with
              | Some prog' => recover rounds' fuel m prog' a e2
              | None => Fault "nil pointer dereference"
              end
            else Ok (VNull, Some (doErr c (rr_prog rr) (rr_pc rr) err), false, e2)
        end
  end.

Definition runRuleImpl (fuel : nat) (m : Module_) (event : Val)
  (prog : program) (e : Evaluator)
  : Res (Val * option error * bool * Evaluator) :=
  match Context_ e with
  | None => Fault "Evaluator's context is nil!"
  | Some _ =>
      let e1 := clearStack e in
      let e2 := with_curexcep e1 VNull in
      let e3 := markTop e2 in
      let e4 := push VNull e3 in
      let e5 := push event e4 in
      let e6 := prologue ftypeRule 1 (Some prog) None e5 in
      recover fuel fuel m prog 0 e6
  end.

Definition runRule (fuel : nat) (m : Module_) (event : Val) (prog : program)
  (e : Evaluator) : Res (Val * option error * Evaluator) :=
  let* (v, err, _, e') := runRuleImpl fuel m event prog e in
  Ok (v, err, e').

Fixpoint runRuleList (fuel : nat) (m : Module_) (event : Val)
  (progList : list program) (e : Evaluator)
  : Res (Val * option error * Evaluator) :=
  match progList with
  | [] => Ok (VNull, None, e)
  | prog :: rest =>
      let* (v, err, next, e') := runRuleImpl fuel m event prog e in
      if next then runRuleList fuel m event rest e'
      else Ok (v, err, e')
  end.

(* ------------------------------------------------------------------------- *)
(** ** Module entry points and the event queue (eval.go, lines 367-406 and
       2140-2224) *)

(** Modelled from the spec: [Module.findEvent], [HasConfig], [HasSession] and
    [HasGlobal], which are not among the sources; "named event map
    (event-name -> ordered list of rule programs)", "optional config program,
    session program list, global program list". *)
Fixpoint findEvent_in (l : list (string * list program)) (event : string)
  : option (list program) :=
  match l with
  | [] => None
  | (n, ps) :: rest => if String.eqb n event then Some ps else findEvent_in rest event
  end.

(** Modelled from the spec: [Module.findEvent]; [None] is Go's [nil]. *)
Definition findEvent (m : Module_) (event : string) : option (list program) :=
  findEvent_in (eventMap m) event.

(** Modelled from the spec: [Module.HasConfig]. *)
Definition HasConfig (m : Module_) : bool :=
  match config m with Some _ => true | None => false end.
(** Modelled from the spec: [Module.HasSession]. *)
Definition HasSession (m : Module_) : bool :=
  match session m with [] => false | _ => true end.
(** Modelled from the spec: [Module.HasGlobal]. *)
Definition HasGlobal (m : Module_) : bool :=
  match globalProgram m with [] => false | _ => true end.

Definition EvalDeferred (fuel : nat) (name : string) (context : Val)
  (m : Module_) (e : Evaluator) : Res (Val * option error * Evaluator) :=
  match findEvent m name with
  | Some plist => runRuleList fuel m context plist e
  | None => Ok (VNull, None, e)
  end.

(** The [callback] closure of [drainEventQueue]: the status it leaves in
    [*statusp] and its answer. *)
Definition drain_callback (e : Evaluator) (status : Z) (name : string)
  (err : string) : Z * bool :=
  let status' :=
    match Event e with
    | Some onEventError => onEventError name err
    | None => status
    end in
  (status', status' =? EventContextContinue).

Definition error_message (err : error) : string :=
  match err with
  | Errorf msg => msg
  | EvalErr _ _ cause _ => cause
  end.

(** Modelled from the spec: [defEventQueue.Drain], which is not among the
    sources; "Drain iterates the queue in FIFO order, invoking
    EvalDeferred(name, context) on the module. On failure, the host
    EventContext.onEventError returns one of: Continue (drop the failing
    event, continue), Pause (stop draining, leave queue), StopAndClear (stop
    and flush the queue)". An entry leaves the queue when it is dispatched.
    The result carries the status the callback left. *)
Fixpoint Drain (fuel : nat) (m : Module_) (status : Z) (e : Evaluator)
  : Res (Z * Evaluator) :=
  match fuel with
  | O => OutOfFuel
  | S fuel' =>
      match eventQ e with
      | [] => Ok (status, e)
      | (name, context) :: rest =>
          let* (_, err, e1) :=
            EvalDeferred fuel' name context m (with_eventQ e rest) in
          match err with
          | None => Drain fuel' m status e1
          | Some er =>
              let (status', continue) :=
                drain_callback e1 status name (error_message er) in
              if continue then Drain fuel' m status' e1
              else Ok (status', e1)
          end
      end
  end.

(** Modelled from the spec: [defEventQueue.Clear]. *)
Definition Clear (e : Evaluator) : Evaluator := with_eventQ e [].

Definition drainEventQueue (fuel : nat) (m : Module_) (e : Evaluator)
  : Res Evaluator :=
  if inEventQueue e then Ok e
  else
    let e1 := with_inEventQueue e true in
    let* (status, e2) := Drain fuel m 0 e1 in
    let e3 := if status =? EventContextStopAndClear then Clear e2 else e2 in
    Ok (with_inEventQueue e3 false).

(** [defer func() { e.drainEventQueue(p) }()] around a body that returns. *)
Definition deferred_drain {A} (fuel : nat) (m : Module_)
  (body : Res (A * Evaluator)) : Res (A * Evaluator) :=
  let* (a, e1) := body in
  let* e2 := drainEventQueue fuel m e1 in
  Ok (a, e2).

(** The loop of [EvalGlobal] and [EvalSession]: stop at the first error. *)
Fixpoint run_each (fuel : nat) (m : Module_) (progs : list program)
  (e : Evaluator) : Res (option error * Evaluator) :=
  match progs with
  | [] => Ok (None, e)
  | prog :: rest =>
      let* (_, err, e1) := runRule fuel m VNull prog e in
      match err with
      | Some er => Ok (Some er, e1)
      | None => run_each fuel m rest e1
      end
  end.

Definition EvalConfig (fuel : nat) (m : Module_) (e : Evaluator)
  : Res (option error * Evaluator) :=
  match config m with
  | None => Ok (None, e)
  | Some cfg =>
      match Config_ e with
      | None => Ok (Some (Errorf "evaluator's Config is not set"), e)
      | Some _ =>
          let* (_, err, e1) := runRule fuel m VNull cfg e in
          Ok (err, e1)
      end
  end.

Definition EvalGlobal (fuel : nat) (m : Module_) (e : Evaluator)
  : Res (option error * Evaluator) :=
  deferred_drain fuel m
    (if negb (HasGlobal m) then Ok (None, e)
     else run_each fuel m (globalProgram m) e).

Definition EvalSession (fuel : nat) (m : Module_) (e : Evaluator)
  : Res (option error * Evaluator) :=
  deferred_drain fuel m
    (if negb (HasSession m) then Ok (None, e)
     else run_each fuel m (session m) (with_Session e [])).

Definition Eval_ (fuel : nat) (event : string) (m : Module_) (e : Evaluator)
  : Res ((Val * option error) * Evaluator) :=
  deferred_drain fuel m
    (match findEvent m event with
     | Some plist =>
         let* (v, err, e1) := runRuleList fuel m VNull plist e in
         Ok ((v, err), e1)
     | None => Ok ((VNull, None), e)
     end).

Definition EvalWithContext (fuel : nat) (event : string) (context : Val)
  (m : Module_) (e : Evaluator) : Res ((Val * option error) * Evaluator) :=
  deferred_drain fuel m
    (match findEvent m event with
     | Some plist =>
         let* (v, err, e1) := runRuleList fuel m context plist e in
         Ok ((v, err), e1)
     | None => Ok ((VNull, None), e)
     end).

End Rules.

(* ------------------------------------------------------------------------- *)
(** ** An implementation of [Extern] for the examples *)

(** Modelled from the spec: [Val.ToBoolean], [Val.ToIndex] and
    [Val.ToString] of val.go, which is not among the sources. "toBool(null) =
    false; toBool(int/real) = (value <> 0); toBool(string) = (length <> 0);
    toBool on containers = (size <> 0); toIndex rejects non-integers". What
    the spec leaves open is fixed here for the examples only, and no example
    reaches it: a bool is its own truth value, the remaining kinds are true,
    [ToString] converts strings only and [math_Pow] is a placeholder. The
    theorems below hold for every implementation. *)
Definition spec_ToBoolean (v : Val) : bool :=
  match v with
  | VNull => false
  | VInt i => negb (i =? 0)
  | VReal r => negb (PrimFloat.eqb r 0%float)
  | VBool b => b
  | VStr s => negb (Nat.eqb (String.length s) 0)
  | VList l => negb (Nat.eqb (List.length l) 0)
  | VMap l => negb (Nat.eqb (List.length l) 0)
  | _ => true
  end.

(** Modelled from the spec: [Val.ToIndex]; "toIndex rejects non-integers". *)
Definition spec_ToIndex (v : Val) : Res Z :=
  match v with
  | VInt i => Ok i
  | _ => Err "value cannot be used as index"
  end.

(** Modelled from the spec: [Val.ToString], on strings only. *)
Definition spec_ToString (v : Val) : Res string :=
  match v with
  | VStr s => Ok s
  | _ => Err "value cannot be converted to string"
  end.

(** Modelled from the spec: the implementation the examples run on. *)
Definition specExtern : Extern :=
  {| ToBoolean := spec_ToBoolean;
     ToString := spec_ToString;
     ToIndex := spec_ToIndex;
     math_Pow := fun _ _ => nan |}.

(** [NewEvaluator(context, config)] *)
Definition NewEvaluator (context config : option nat) : Evaluator :=
  {| Stack := []; Session := []; Context_ := context; Config_ := config;
     Event := None; curframe := topframe; curexcep := VNull;
     eventQ := []; inEventQueue := false |}.

Definition mkprog (n : string) (t : progtype_t) (args : Z)
  (code : list bytecode) (ints : list Z) (strs : list string) : program :=
  {| name := n; progtype := t; argSize := args; localSize := 0;
     bcList := code; intTable := ints; realTable := []; strTable := strs |}.

(* ------------------------------------------------------------------------- *)
(** ** Anchors, slices and filters (mod_query.go, lines 9-80, 118-162 and
       270-377)

    As for the other queries, the argument is the one [info.Check] has let
    through: for the anchors a list or a pair ([{%l}{%p}]). The [must] of the
    source guards the remaining kinds. [List.At(i)] and [List.Length()] are
    the element [Data[i]] and [len(Data)]. *)

Definition qFirst (a : Val) : Res Val :=
  match a with
  | VList l =>
      if len l =? 0 then Err "list is empty"
      else match at_ l 0 with
           | Some x => Ok x
           | None => Fault "index out of range"
           end
  | VPair f _ => Ok f
  | _ => Fault "must be pair"
  end.

Definition qLast (a : Val) : Res Val :=
  match a with
  | VList l =>
      if len l =? 0 then Err "list is empty"
      else match at_ l (len l - 1) with
           | Some x => Ok x
           | None => Fault "index out of range"
           end
  | VPair _ s => Ok s
  | _ => Fault "must be pair"
  end.

Definition qRest (a : Val) : Res Val :=
  match a with
  | VList l =>
      if len l =? 0 then Ok (VList [])
      else Ok (VList (slice_from l 1))
  | VPair _ s => Ok (VList [s])
  | _ => Fault "must be pair"
  end.

(** The loop [for ; start < end; start += step { o.AddList(list.At(start)) }]
    of [qSlice]; [start] is a Go [int] and wraps. *)
Fixpoint qSlice_loop (fuel : nat) (l : list Val) (start end_ step : Z)
  (o : list Val) : Res (list Val) :=
  match fuel with
  | O => OutOfFuel
  | S fuel' =>
      if start <? end_ then
        match at_ l start with
        | Some x => qSlice_loop fuel' l (wrap64 (start + step)) end_ step (o ++ [x])%list
        | None => Fault "index out of range"
        end
      else Ok o
  end.

(** [qSlice] once [start], [end] and [step] have been read from the
    arguments. *)
Definition qSlice_from (fuel : nat) (l : list Val) (start end_ step : Z)
  : Res Val :=
  let end1 := if len l <=? end_ then len l else end_ in
  let start1 := if end1 <? start then end1 else start in
  let* o := qSlice_loop fuel l start1 end1 step [] in
  Ok (VList o).

(** [qSlice]: the list and the one to three ints the signature
    [{%l%d}{%l%d%d}{%l%d%d%d}] admits after it. *)
Definition qSlice (fuel : nat) (l : list Val) (ints : list Z) : Res Val :=
  match ints with
  | [start] => qSlice_from fuel l start (len l) 1
  | [start; end_] => qSlice_from fuel l start end_ 1
  | [start; end_; step] => qSlice_from fuel l start end_ step
  | _ => Err "argument mismatch"
  end.

Definition qMin (l : list Val) : Res Val :=
  let* (ival, rval, t, _) :=
    qagg l (fun iprev icur rprev rcur t (s : unit) =>
              match t with
              | isint => if icur <? iprev then ((icur, 0%float, isint), s)
                         else ((iprev, 0%float, isint), s)
              | _ => if PrimFloat.ltb rcur rprev then ((0, rcur, isreal), s)
                     else ((0, rprev, isreal), s)
              end) tt in
  qaggret ival rval t.

(** A script callback as a query sees it. [fn.Call(eval, args)] returns a
    value or an error and may change the evaluator it runs on. It may also
    assign elements of the list the query is ranging over, which it reaches
    through another handle of that list: [cells] is the backing array of the
    list as the call finds it, and the call answers with the assignments
    [l[i] = v] it made to it, in order. *)
Definition callback : Type :=
  list Val -> list Val -> Evaluator -> Res (Val * list (Z * Val) * Evaluator).

(** The backing array after [l[i] = v]. The slice that [range] holds keeps
    its length: an index outside it does not reach its cells. *)
Definition assign (cells : list Val) (w : Z * Val) : list Val :=
  match set_at cells (fst w) (snd w) with
  | Some cells' => cells'
  | None => cells
  end.

Definition assign_all (cells : list Val) (ws : list (Z * Val)) : list Val :=
  fold_left assign ws cells.

(** [filterImpl], list branch: [for k, v := range a0.List().Data]. The slice
    is evaluated once, so the loop runs [n] times, the length at entry; the
    element [v] is read from the backing array when the loop reaches the
    index [k], after the calls before it. [o] is the output so far. *)
Fixpoint filter_loop (name : string) (fn : callback) (should : bool -> bool)
  (n : nat) (k : Z) (cells : list Val) (o : list Val) (eval : Evaluator)
  : Res (list Val * list Val * Evaluator) :=
  match n with
  | O => Ok (o, cells, eval)
  | S n' =>
      match at_ cells k with
      | None => Fault "index out of range"
      | Some v =>
          let* (vv, ws, eval1) := fn [VInt k; v] cells eval in
          match vv with
          | VBool b =>
              filter_loop name fn should n' (k + 1) (assign_all cells ws)
                (if should b then (o ++ [v])%list else o) eval1
          | _ => Err (name ++ " callback function must return bool")
          end
      end
  end.

(** The result, the list as the calls left it, and the evaluator. *)
Definition filterImpl (name : string) (l : list Val) (fn : callback)
  (should : bool -> bool) (eval : Evaluator)
  : Res (Val * list Val * Evaluator) :=
  let* (o, cells, eval1) :=
    filter_loop name fn should (List.length l) 0 l [] eval in
  Ok (VList o, cells, eval1).

Definition qFilter (l : list Val) (fn : callback) (eval : Evaluator)
  : Res (Val * list Val * Evaluator) :=
  filterImpl "q::filter" l fn (fun p => p) eval.

Definition qFilterNot (l : list Val) (fn : callback) (eval : Evaluator)
  : Res (Val * list Val * Evaluator) :=
  filterImpl "q::filter_not" l fn (fun p => negb p) eval.

(* ------------------------------------------------------------------------- *)
(** ** Vocabulary of the statements *)

Definition l1234 : list Val := [VInt 1; VInt 2; VInt 3; VInt 4].

Definition real_of (r : Res Val) : float :=
  match r with Ok (VReal x) => x | _ => nan end.

(** The selection the range test is after: the elements at the selectors that
    are indices of [l], in argument order. *)
Fixpoint select_in_range (l : list Val) (sel : list Z) : list Val :=
  match sel with
  | [] => []
  | idx :: sel' =>
      match at_ l idx with
      | Some x => x :: select_in_range l sel'
      | None => select_in_range l sel'
      end
  end.

(** The kind the coercion rule promises for two numeric operands: int for two
    ints, real for two reals and for a mixed pair. *)
Definition result_kind (a b : Val) : ValType :=
  if IsInt a && IsInt b then ValInt else ValReal.

Definition has_kind (r : Res Val) (k : ValType) : Prop :=
  match r with
  | Ok v => Type_ v = k
  | _ => False
  end.

(** The coercion rule at one operation: it returns a value of the promised
    kind. *)
Definition kind_rule_at {X : Extern} (fuel : nat) (op : opcode) (a b : Val)
  : Prop :=
  has_kind (doBin fuel a b op) (result_kind a b).

(** The division rule at one operation: it fails with "divide zero". *)
Definition divide_zero_at {X : Extern} (fuel : nat) (op : opcode) (a b : Val)
  : Prop :=
  doBin fuel a b op = Err "divide zero".

(** What the short-circuit instructions can do with the top of the stack:
    keep it and leave the [switch] with [pc = target - 1], so that the loop's
    [pc++] continues at [target]; or pop it and go on to the next
    instruction. *)
Definition keeps_and_jumps {X : Extern} (fuel : nat) (m : Module_)
  (prog : program) (pc : Z) (e : Evaluator) (target : Z) : Prop :=
  step fuel m prog pc e = Ok (Break prog (target - 1) e).

Definition pops_and_falls_through {X : Extern} (fuel : nat) (m : Module_)
  (prog : program) (pc : Z) (e : Evaluator) : Prop :=
  exists s v, Stack e = (s ++ [v])%list /\
              step fuel m prog pc e = Ok (Break prog pc (with_Stack e s)).

Definition instr_at (prog : program) (pc : Z) (op : opcode) (arg : Z) : Prop :=
  at_ (bcList prog) pc = Some (BC op arg).

Definition emptyModule : Module_ :=
  {| fn := []; config := None; session := []; globalProgram := [];
     eventMap := [] |}.

(** A one-instruction program and an evaluator with one value on the stack. *)
Definition one_instr (op : opcode) (arg : Z) : program :=
  mkprog "p" progRule 1 [BC op arg] [] [].

Definition with_top (v : Val) : Evaluator :=
  push v (NewEvaluator (Some 0%nat) None).

(** The frames alive in an evaluator: the current one and the callers' frames
    that [prologue] saved on the stack. *)
Definition live_frame (e : Evaluator) (f : funcframe) : Prop :=
  f = curframe e \/ In (VFrame f) (Stack e).

(** The state of a frame that has a handler registered and may use it. *)
Definition can_catch (breaker : Evaluator -> bool) (e : Evaluator) : Prop :=
  isTop (curframe e) = false /\ breaker e = false /\
  isScript (curframe e) = true.

(** [try { 1/0 } catch e { return e }], compiled by hand: the handler is at
    pc 6. *)
Definition try_prog : program :=
  mkprog "try" progRule 1
    [BC bcPushException 6; BC bcLoadInt 0; BC bcLoadInt 1; BC bcDiv 0;
     BC bcPop 0; BC bcPopException 8;
     BC bcLoadException 0; BC bcReturn 0;
     BC bcLoadNull 0; BC bcReturn 0]
    [1; 0] [].

(** The evaluator as [runRuleImpl] enters [runP]: marker, event, saved top frame. *)
Definition entered (prog : program) (event : Val) : Evaluator :=
  prologue ftypeRule 1 (Some prog) None
    (push event (push VNull (markTop (NewEvaluator (Some 0%nat) None)))).

Definition rule_breaker (e : Evaluator) : bool := isTop (curframe e).

(** [try_prog] after [pushException 6] and the first operand of the
    division. *)
Definition mid_expression : Evaluator :=
  push (VInt 1)
    (pushExcep 6 (stackSize (entered try_prog VNull)) (entered try_prog VNull)).

(** The part of the evaluator the host owns and the drain flag: no bytecode
    writes them. *)
Definition host_of (e : Evaluator) : option (string -> string -> Z) * bool :=
  (Event e, inEventQueue e).

Definition ev_of (s : Step) : Evaluator :=
  match s with
  | Break _ _ e => e
  | Func _ e => e
  | Return _ e => e
  end.


(** An entry point drains: when it returns, from an evaluator that is not
    draining already and whose host installs no error callback, no event is
    left in the queue. *)
Definition drains_after {A : Type} (entry : Evaluator -> Res (A * Evaluator))
  : Prop :=
  forall e a e',
    Event e = None -> inEventQueue e = false ->
    entry e = Ok (a, e') ->
    eventQ e' = [] /\ inEventQueue e' = false.

(** An entry point calls [drainEventQueue] once its rules have returned: it
    answers what [rules] answered, on the evaluator [drainEventQueue] left,
    and fails where either of them fails. *)
Definition calls_drain {X : Extern} {A : Type} (fuel : nat) (m : Module_)
  (entry rules : Evaluator -> Res (A * Evaluator)) : Prop :=
  forall e,
    entry e
    = bind (rules e)
        (fun '(a, e1) => bind (drainEventQueue fuel m e1) (fun e2 => Ok (a, e2))).

(** What a drain does after it has dispatched the event [name] on [e1] with
    the outcome [err]: it goes on with the events still queued, unless the
    host's error callback answered the error with something other than
    [Continue]; then it stops, flushing the queue on [StopAndClear]. *)
Definition after_dispatch {X : Extern} (fuel : nat) (m : Module_)
  (name : string) (err : option error) (e1 : Evaluator) : Res Evaluator :=
  match err with
  | None => drainEventQueue fuel m (with_inEventQueue e1 false)
  | Some er =>
      let (status', continue) := drain_callback e1 0 name (error_message er) in
      if continue then drainEventQueue fuel m (with_inEventQueue e1 false)
      else Ok (with_inEventQueue
                 (if status' =? EventContextStopAndClear then Clear e1 else e1)
                 false)
  end.

(** Rules [A] (emits "child", then [nextRule]) and [B] (returns 7) on the
    event "e", [C] (stores 5 in the session) on "child"; and a config program
    that emits "child". *)
Definition ruleA : program :=
  mkprog "A" progRule 1
    [BC bcLoadStr 0; BC bcLoadNull 0; BC bcEmit 0; BC bcNextRule 0] [] ["child"].
Definition ruleB : program :=
  mkprog "B" progRule 1 [BC bcLoadInt 0; BC bcReturn 0] [7] [].
Definition ruleC : program :=
  mkprog "C" progRule 1 [BC bcLoadInt 0; BC bcSetSession 0; BC bcHalt 0] [5] [].
Definition cfgEmit : program :=
  mkprog "cfg" progConfig 1
    [BC bcLoadStr 0; BC bcLoadNull 0; BC bcEmit 0; BC bcHalt 0] [] ["child"].

Definition sampleModule : Module_ :=
  {| fn := []; config := Some cfgEmit; session := []; globalProgram := [cfgEmit];
     eventMap := [("e", [ruleA; ruleB; ruleC]); ("child", [ruleC])] |}.

Definition freshEvaluator : Evaluator := NewEvaluator (Some 0%nat) (Some 0%nat).

(** The ints of a list, in order, and their sum. *)
Fixpoint ints_of (l : list Val) : list Z :=
  match l with
  | [] => []
  | VInt i :: rest => i :: ints_of rest
  | _ :: rest => ints_of rest
  end.

Definition sumZ (l : list Z) : Z := fold_right Z.add 0 l.

(** No int and no real among the elements. *)
Definition no_number (l : list Val) : Prop :=
  forall v, In v l -> IsNumber v = false.

(** [subseq r l]: [r] is [l] with some elements left out, order kept. *)
Inductive subseq {A : Type} : list A -> list A -> Prop :=
| subseq_nil : subseq [] []
| subseq_keep : forall x r l, subseq r l -> subseq (x :: r) (x :: l)
| subseq_drop : forall x r l, subseq r l -> subseq r (x :: l).

(** The elements of [l] whose index and value satisfy [f], the first
    element having index [k]. *)
Fixpoint keep (f : Z -> Val -> bool) (l : list Val) (k : Z) : list Val :=
  match l with
  | [] => []
  | v :: rest => if f k v then v :: keep f rest (k + 1) else keep f rest (k + 1)
  end.

(** The number of elements [start, start+step, ...] below [end_]. *)
Definition stride_count (start end_ step : Z) : Z :=
  if start <? end_ then (end_ - start + step - 1) / step else 0.

(** A callback for the examples: "the value is an even int". *)
Definition is_even (k : Z) (v : Val) : bool :=
  match v with VInt i => Z.even i | _ => false end.

Definition even_callback : callback :=
  fun args cells eval =>
    match args with
    | [VInt k; v] => Ok (VBool (is_even k v), [], eval)
    | _ => Ok (VNull, [], eval)
    end.




(** A caller about to call a two-argument function (callee slot, 20, 22 on
    its stack), and the callee after the call with one value of its own
    pushed. *)
Definition at_call : Evaluator :=
  push (VInt 22) (push (VInt 20) (push (VInt 0) (entered ruleA VNull))).

Definition in_callee : Evaluator :=
  push (VStr "local") (prologue ftypeScript 2 (Some ruleB) None at_call).

(** The six comparison opcodes, and the operand pairs they accept: two
    numbers, or two strings. *)
Definition cmp_op (op : opcode) : bool :=
  match op with
  | bcEq | bcNe | bcLt | bcLe | bcGt | bcGe => true
  | _ => false
  end.

Definition comparable (a b : Val) : bool :=
  (IsNumber a && IsNumber b) || (IsString a && IsString b).

(** A rule that divides by zero with no handler registered. *)
Definition ruleDiv0 : program :=
  mkprog "D" progRule 1
    [BC bcLoadInt 0; BC bcLoadInt 1; BC bcDiv 0; BC bcReturn 0] [1; 0] [].

(** An evaluator with 1 and 2 on its stack, 2 on top. *)
Definition two_on_stack : Evaluator := push (VInt 2) (with_top (VInt 1)).

(* ========================================================================= *)
(** * Properties *)

(* ------------------------------------------------------------------------- *)
(** ** Wrap-around arithmetic *)

Lemma wrap64_range z : in_range (wrap64 z).
Proof.
  unfold in_range, wrap64, min_int, max_int.
  pose proof (Z.mod_pos_bound (z + 2 ^ 63) (2 ^ 64) ltac:(lia)). lia.
Qed.

Lemma wrap64_id z : in_range z -> wrap64 z = z.
Proof.
  unfold in_range, wrap64, min_int, max_int. intros H.
  rewrite Z.mod_small; lia.
Qed.

Lemma wrap64_mul_l a b : wrap64 (wrap64 a * b) = wrap64 (a * b).
Proof.
  unfold wrap64. f_equal.
  replace (((a + 2 ^ 63) mod 2 ^ 64 - 2 ^ 63) * b + 2 ^ 63)
    with ((a + 2 ^ 63) mod 2 ^ 64 * b + (2 ^ 63 - 2 ^ 63 * b)) by ring.
  replace (a * b + 2 ^ 63)
    with ((a + 2 ^ 63) * b + (2 ^ 63 - 2 ^ 63 * b)) by ring.
  rewrite (Z.add_mod ((a + 2 ^ 63) mod 2 ^ 64 * b)) by lia.
  rewrite (Z.add_mod ((a + 2 ^ 63) * b)) by lia.
  rewrite Z.mul_mod_idemp_l by lia. reflexivity.
Qed.

(* ------------------------------------------------------------------------- *)
(** ** [powI] *)

Lemma powI_loop_fuel_mono fuel : forall n m i r v k,
  powI_loop fuel n m i r = Some v -> powI_loop (fuel + k) n m i r = Some v.
Proof.
  induction fuel as [|fuel IH]; simpl; intros n m i r v k H; [discriminate|].
  destruct (i <=? m); [apply IH; exact H | exact H].
Qed.

(** Invariant of the loop: entering with counter [i] and [result = n^(i-1)]
    (wrapped), [j] further iterations leave [n^m]. *)
Lemma powI_loop_product (j : nat) : forall n m i r,
  2 <= i -> m < max_int -> i + Z.of_nat j = m + 1 ->
  r = wrap64 (n ^ (i - 1)) ->
  powI_loop (S j) n m i r = Some (wrap64 (n ^ m)).
Proof.
  induction j as [|j IH]; intros n m i r Hi Hm Hj Hr.
  - simpl. replace (i <=? m) with false by (symmetry; apply Z.leb_gt; lia).
    subst r. replace (i - 1) with m by lia. reflexivity.
  - cbn [powI_loop]. replace (i <=? m) with true by (symmetry; apply Z.leb_le; lia).
    assert (Hw : wrap64 (i + 1) = i + 1).
    { apply wrap64_id. unfold in_range, min_int, max_int in *. lia. }
    rewrite Hw. apply IH; try lia.
    subst r. rewrite wrap64_mul_l. f_equal.
    replace (i + 1 - 1) with (Z.succ (i - 1)) by lia.
    rewrite Z.pow_succ_r by lia. ring.
Qed.

Lemma powI_zero fuel n : powI fuel n 0 = Some 1.
Proof. reflexivity. Qed.

Lemma powI_negative fuel n m : m < 0 -> powI (S fuel) n m = Some n.
Proof.
  intros H. unfold powI. replace (m =? 0) with false by (symmetry; apply Z.eqb_neq; lia).
  simpl. replace (2 <=? m) with false by (symmetry; apply Z.leb_gt; lia). reflexivity.
Qed.

(** X2. For an exponent from 1 up to, and not including, the largest int64,
    [powI] returns the [m]-fold product of [n], wrapped to 64 bits. *)
Lemma powI_positive n m :
  in_range n -> 1 <= m < max_int ->
  powI (Z.to_nat m) n m = Some (wrap64 (n ^ m)).
Proof.
  intros Hn Hm. unfold powI.
  replace (m =? 0) with false by (symmetry; apply Z.eqb_neq; lia).
  replace (Z.to_nat m) with (S (Z.to_nat (m - 1))) by lia.
  apply powI_loop_product; try lia.
  rewrite Z.pow_1_r. symmetry. apply wrap64_id. exact Hn.
Qed.

Lemma powI_positive_witness : powI 10 3 10 = Some (wrap64 (3 ^ 10)).
Proof.
  apply (powI_positive 3 10); unfold in_range, min_int, max_int; lia.
Defined.

(** When [m] is the largest [int64], [i <= m] holds for every value the
    counter can take and the loop has no exit. *)
Lemma powI_loop_max_int fuel : forall n i r,
  in_range i -> powI_loop fuel n max_int i r = None.
Proof.
  induction fuel as [|fuel IH]; intros n i r Hi; [reflexivity|].
  cbn [powI_loop].
  replace (i <=? max_int) with true
    by (symmetry; apply Z.leb_le; unfold in_range in Hi; lia).
  apply IH. apply wrap64_range.
Qed.

Lemma powI_loop_terminates (j : nat) : forall n m i r,
  2 <= i -> m < max_int -> i + Z.of_nat j = m + 1 ->
  exists v, powI_loop (S j) n m i r = Some v.
Proof.
  induction j as [|j IH]; intros n m i r Hi Hm Hj.
  - exists r. simpl.
    replace (i <=? m) with false by (symmetry; apply Z.leb_gt; lia). reflexivity.
  - cbn [powI_loop]. replace (i <=? m) with true by (symmetry; apply Z.leb_le; lia).
    assert (Hw : wrap64 (i + 1) = i + 1).
    { apply wrap64_id. unfold in_range, min_int, max_int in *. lia. }
    rewrite Hw. apply IH; lia.
Qed.

(** Below the largest exponent [powI] returns, whatever the base, as soon
    as the fuel covers the exponent. *)
Lemma powI_returns fuel n m :
  m < max_int -> (1 <= fuel)%nat -> (Z.to_nat m <= fuel)%nat ->
  exists v, powI fuel n m = Some v.
Proof.
  intros Hm Hf1 Hf. unfold powI. destruct (m =? 0) eqn:E0; [eauto|].
  apply Z.eqb_neq in E0.
  destruct (Z_lt_le_dec m 2) as [Hlt|Hge].
  - destruct fuel as [|fuel]; [lia|]. exists n. simpl.
    replace (2 <=? m) with false by (symmetry; apply Z.leb_gt; lia). reflexivity.
  - assert (exists v, powI_loop (S (Z.to_nat (m - 1))) n m 2 n = Some v) as [v Hv]
      by (apply powI_loop_terminates; lia).
    exists v.
    replace fuel with (S (Z.to_nat (m - 1)) + (fuel - S (Z.to_nat (m - 1))))%nat by lia.
    apply powI_loop_fuel_mono. exact Hv.
Qed.

(** C10. [powI] at the largest [int64] exponent: the counter [i] wraps from
    [max_int] to [min_int], the test [i <= m] never fails, and the call does
    not return, whatever the base and however long it runs. For every other
    exponent the function returns: see [powI_zero], [powI_negative] and
    [powI_positive]. *)
Theorem powI_max_exponent_diverges :
  forall (fuel : nat) (n : Z), powI fuel n max_int = None.
Proof.
  intros fuel n. unfold powI.
  replace (max_int =? 0) with false by reflexivity.
  apply powI_loop_max_int. unfold in_range, min_int, max_int. lia.
Qed.

(* ------------------------------------------------------------------------- *)
(** ** Aggregation and projection queries *)

Lemma float_3_neq_2_5 : 3%float <> 2.5%float.
Proof.
  intro H.
  assert (E : PrimFloat.eqb 3%float 2.5%float = true) by (rewrite H; reflexivity).
  vm_compute in E. discriminate.
Qed.

(** C5. On [[1,2,3,4]]: [q::sum] is the int 10, [q::max] the int 4, [q::max]
    of the empty list is null, and [q::avg] is the real 3.0, not 2.5: the
    first element, which [firstNum] consumes, reaches none of the joiner's
    calls, so [qAvg] divides 2+3+4 by 3. *)
Theorem qAvg_drops_first_element :
  qSum l1234 = Ok (VInt 10) /\
  qMax l1234 = Ok (VInt 4) /\
  qMax [] = Ok VNull /\
  qAvg l1234 = Ok (VReal 3%float) /\
  qAvg l1234 <> Ok (VReal 2.5%float).
Proof.
  repeat split; try (vm_compute; reflexivity).
  intro H. apply (f_equal real_of) in H. vm_compute in H.
  exact (float_3_neq_2_5 H).
Qed.

(** [qCount] does count the element [firstNum] consumed. *)
Lemma qCount_1234 : qCount l1234 = Ok (VInt 4).
Proof. vm_compute. reflexivity. Qed.

Lemma at_some_iff {A} (l : list A) (i : Z) :
  (exists x, at_ l i = Some x) <-> 0 <= i < len l.
Proof.
  unfold at_, len. destruct (i <? 0) eqn:E.
  - apply Z.ltb_lt in E. split; [intros [x H]; discriminate | lia].
  - apply Z.ltb_ge in E. split.
    + intros [x H]. assert (Hn : nth_error l (Z.to_nat i) <> None) by congruence.
      apply nth_error_Some in Hn. lia.
    + intros H. destruct (nth_error l (Z.to_nat i)) eqn:N; [eauto|].
      apply nth_error_None in N. lia.
Qed.

Lemma at_length_none {A} (l : list A) : at_ l (len l) = None.
Proof.
  destruct (at_ l (len l)) eqn:E; [|reflexivity].
  assert (H : exists x, at_ l (len l) = Some x) by eauto.
  apply at_some_iff in H. lia.
Qed.

Lemma qSelect_loop_in_range l : forall sel o,
  (forall i, In i sel -> i <> len l) ->
  qSelect_loop l sel o = Ok (o ++ select_in_range l sel)%list.
Proof.
  induction sel as [|idx sel IH]; intros o Hne; simpl.
  - rewrite app_nil_r. reflexivity.
  - assert (Hidx : idx <> len l) by (apply Hne; left; reflexivity).
    assert (Hrest : forall i, In i sel -> i <> len l) by (intros i Hi; apply Hne; right; exact Hi).
    destruct ((0 <=? idx) && (idx <=? len l)) eqn:R.
    + apply andb_true_iff in R. destruct R as [R1 R2].
      apply Z.leb_le in R1. apply Z.leb_le in R2.
      destruct (proj2 (at_some_iff l idx) ltac:(lia)) as [x Hx].
      rewrite Hx. rewrite IH by exact Hrest. rewrite <- app_assoc. reflexivity.
    + destruct (at_ l idx) eqn:Hx.
      * assert (H : exists x, at_ l idx = Some x) by eauto.
        apply at_some_iff in H.
        apply andb_false_iff in R. destruct R as [R|R];
          [apply Z.leb_gt in R | apply Z.leb_gt in R]; lia.
      * apply IH. exact Hrest.
Qed.

(** X3. Away from the selector [len l], [q::select] on a list returns the
    elements at the selectors that are indices of the list, in argument
    order, and skips the others. *)
Lemma qSelect_in_range l sel :
  (forall i, In i sel -> i <> len l) ->
  qSelect l sel = Ok (VList (select_in_range l sel)).
Proof.
  intros H. unfold qSelect. rewrite qSelect_loop_in_range by exact H. reflexivity.
Qed.

Lemma qSelect_in_range_witness :
  qSelect [VInt 1; VInt 2; VInt 3] [2; 7; 0; -1]
  = Ok (VList (select_in_range [VInt 1; VInt 2; VInt 3] [2; 7; 0; -1])).
Proof.
  apply qSelect_in_range. intros i Hi. simpl in Hi. unfold len. simpl.
  destruct Hi as [<-|[<-|[<-|[<-|[]]]]]; discriminate.
Defined.

(** C9. The selector equal to the length of the list passes the range test
    [idx <= l.Length()] and the access [l.Data[idx]] faults. *)
Theorem qSelect_at_length_faults :
  forall (l : list Val) (sel : list Z),
    qSelect l (len l :: sel) = Fault "index out of range".
Proof.
  intros l sel. unfold qSelect. simpl.
  assert (R : (0 <=? len l) && (len l <=? len l) = true).
  { apply andb_true_iff. split; apply Z.leb_le; unfold len; lia. }
  rewrite R. rewrite at_length_none. reflexivity.
Qed.

Example qSelect_one_past_the_end : qSelect [VInt 1] [1] = Fault "index out of range".
Proof. reflexivity. Qed.

(* ------------------------------------------------------------------------- *)
(** ** Arithmetic of [doBin] *)

Section BinaryFacts.
Context {X : Extern}.

Lemma mod_needs_two_ints fuel a b :
  IsInt a && IsInt b = false ->
  doBin fuel a b bcMod = Err "invalid operand for *".
Proof.
  intros H. destruct a, b; try discriminate H; reflexivity.
Qed.

Lemma int_division_by_zero fuel i :
  doBin fuel (VInt i) (VInt 0) bcDiv = Err "divide zero" /\
  doBin fuel (VInt i) (VInt 0) bcMod = Err "divide zero".
Proof. split; reflexivity. Qed.

Lemma int_division fuel i j :
  j <> 0 ->
  doBin fuel (VInt i) (VInt j) bcDiv = Ok (VInt (Int64.quot i j)) /\
  doBin fuel (VInt i) (VInt j) bcMod = Ok (VInt (Int64.rem i j)).
Proof.
  intros H. apply Z.eqb_neq in H. simpl. rewrite H. split; reflexivity.
Qed.

Lemma real_division_total fuel a b :
  IsNumber a = true -> IsNumber b = true -> IsInt a && IsInt b = false ->
  doBin fuel a b bcDiv = Ok (VReal (PrimFloat.div (mustReal a) (mustReal b))).
Proof.
  intros Ha Hb H.
  destruct a; try discriminate Ha; destruct b; try discriminate Hb;
    try discriminate H; reflexivity.
Qed.

End BinaryFacts.

(** C6, the claim at real operands: 1.0 / 0.0 does not fail, it is the real
    +Inf; and so for a mixed pair. *)
Lemma real_division_by_zero_returns :
  ~ divide_zero_at (X := specExtern) 0 bcDiv (VReal 1%float) (VReal 0%float) /\
  ~ divide_zero_at (X := specExtern) 0 bcDiv (VInt 1) (VReal 0%float) /\
  doBin (X := specExtern) 0 (VReal 1%float) (VReal 0%float) bcDiv
    = Ok (VReal infinity).
Proof.
  unfold divide_zero_at. repeat split; try (intro H; vm_compute in H; discriminate H).
Qed.

(** C6, amended. The modulo operator is defined on two ints only; an int
    division or modulo with divisor zero fails with "divide zero" for every
    dividend, and with another divisor returns the truncated quotient or
    remainder; a division with a real operand never fails, a zero divisor
    included: it returns the IEEE quotient as a real. *)
Theorem division_and_modulo_by_zero :
  forall (X : Extern) (fuel : nat) (a b : Val) (i j : Z),
    (IsInt a && IsInt b = false ->
     doBin fuel a b bcMod = Err "invalid operand for *") /\
    divide_zero_at fuel bcDiv (VInt i) (VInt 0) /\
    divide_zero_at fuel bcMod (VInt i) (VInt 0) /\
    (j <> 0 ->
     doBin fuel (VInt i) (VInt j) bcDiv = Ok (VInt (Int64.quot i j)) /\
     doBin fuel (VInt i) (VInt j) bcMod = Ok (VInt (Int64.rem i j))) /\
    (IsNumber a = true -> IsNumber b = true -> IsInt a && IsInt b = false ->
     doBin fuel a b bcDiv = Ok (VReal (PrimFloat.div (mustReal a) (mustReal b)))).
Proof.
  intros X fuel a b i j. unfold divide_zero_at.
  split; [apply mod_needs_two_ints|].
  split; [apply int_division_by_zero|].
  split; [apply int_division_by_zero|].
  split; [apply int_division | apply real_division_total].
Qed.

(** C7, the claim at the modulo of two reals: an error, not a real. *)
Lemma modulo_of_reals_is_an_error :
  ~ kind_rule_at (X := specExtern) 0 bcMod (VReal 5%float) (VReal 2%float).
Proof. unfold kind_rule_at. simpl. exact (fun H => H). Qed.

(** C7, amended. On two numeric operands, [+], [-], [*] and [**] return an int
    for two ints and a real otherwise, and so does [/] unless it divides an
    int by the int zero, which is the error "divide zero"; [%] returns an int
    for two ints with a non-zero divisor, is "divide zero" for the int
    divisor zero, and an error for every pair with a real operand. (For [**]
    on ints the exponent is below the largest int64 and the fuel covers
    it.) *)
Theorem arith_result_kinds :
  forall (X : Extern) (fuel : nat) (op : opcode) (a b : Val),
    arith_op op = true -> IsNumber a = true -> IsNumber b = true ->
    match op with
    | bcMod =>
        if IsInt a && IsInt b
        then if Int_ b =? 0 then divide_zero_at fuel op a b
             else kind_rule_at fuel op a b
        else doBin fuel a b op = Err "invalid operand for *"
    | bcDiv =>
        if IsInt a && IsInt b && (Int_ b =? 0) then divide_zero_at fuel op a b
        else kind_rule_at fuel op a b
    | bcPow =>
        if IsInt a && IsInt b
        then Int_ b < max_int -> (1 <= fuel)%nat -> (Z.to_nat (Int_ b) <= fuel)%nat ->
             kind_rule_at fuel op a b
        else kind_rule_at fuel op a b
    | _ => kind_rule_at fuel op a b
    end.
Proof.
  intros X fuel op a b Hop Ha Hb.
  unfold kind_rule_at, divide_zero_at, result_kind.
  destruct op; try discriminate Hop;
    destruct a; try discriminate Ha; destruct b; try discriminate Hb;
    cbn [IsInt Type_ ValType_eqb andb Int_ doBin mustReal IsNumber orb has_kind];
    try reflexivity.
  - (* int / int *)
    destruct (i0 =? 0); reflexivity.
  - (* int % int *)
    destruct (i0 =? 0); reflexivity.
  - (* int ** int *)
    intros Hm Hf1 Hf.
    destruct (powI_returns fuel i i0 Hm Hf1 Hf) as [v Hv]. rewrite Hv. reflexivity.
Qed.

Lemma arith_result_kinds_witness :
  kind_rule_at (X := specExtern) 0 bcAdd (VInt 1) (VReal 2.5%float) /\
  kind_rule_at (X := specExtern) 3 bcPow (VInt 2) (VInt 3) /\
  divide_zero_at (X := specExtern) 0 bcDiv (VInt 1) (VInt 0).
Proof.
  split; [| split].
  - exact (arith_result_kinds specExtern 0 bcAdd (VInt 1) (VReal 2.5%float)
             eq_refl eq_refl eq_refl).
  - apply (arith_result_kinds specExtern 3 bcPow (VInt 2) (VInt 3)
             eq_refl eq_refl eq_refl); simpl; unfold max_int; lia.
  - exact (arith_result_kinds specExtern 0 bcDiv (VInt 1) (VInt 0)
             eq_refl eq_refl eq_refl).
Defined.

(* ------------------------------------------------------------------------- *)
(** ** Pairs *)

Section PairFacts.
Context {X : Extern}.
Import ObjPair.

Lemma Dot_other p n :
  n <> "first" -> n <> "second" -> isErr (Dot p n) = true.
Proof.
  intros H1 H2. unfold Dot.
  destruct (String.eqb_spec n "first"); [contradiction|].
  destruct (String.eqb_spec n "second"); [contradiction|]. reflexivity.
Qed.

Lemma DotSet_other p n v :
  n <> "first" -> n <> "second" -> isErr (DotSet p n v) = true.
Proof.
  intros H1 H2. unfold DotSet.
  destruct (String.eqb_spec n "first"); [contradiction|].
  destruct (String.eqb_spec n "second"); [contradiction|]. reflexivity.
Qed.

Hypothesis ToIndex_int : forall i, ToIndex (VInt i) = Ok i.
Hypothesis ToIndex_rejects : forall idx, IsInt idx = false -> isErr (ToIndex idx) = true.

Lemma ToIndex_cases idx :
  (exists i, idx = VInt i /\ ToIndex idx = Ok i) \/ (exists m, ToIndex idx = Err m).
Proof.
  destruct idx;
    try (right; match goal with
                | |- exists m, ToIndex ?v = _ =>
                    pose proof (ToIndex_rejects v eq_refl) as H;
                    destruct (ToIndex v); try discriminate H; eauto
                end).
  left. eauto.
Qed.

Lemma Index_other p idx :
  idx <> VInt 0 -> idx <> VInt 1 -> isErr (Index p idx) = true.
Proof.
  intros H0 H1. unfold Index.
  destruct (ToIndex_cases idx) as [[i [E Hi]]|[m Hm]].
  - rewrite Hi. simpl. subst idx.
    destruct (Z.eqb_spec i 0); [subst; contradiction|].
    destruct (Z.eqb_spec i 1); [subst; contradiction|]. reflexivity.
  - rewrite Hm. reflexivity.
Qed.

Lemma IndexSet_other p idx v :
  idx <> VInt 0 -> idx <> VInt 1 -> isErr (IndexSet p idx v) = true.
Proof.
  intros H0 H1. unfold IndexSet.
  destruct (ToIndex_cases idx) as [[i [E Hi]]|[m Hm]].
  - rewrite Hi. simpl. subst idx.
    destruct (Z.eqb_spec i 0); [subst; contradiction|].
    destruct (Z.eqb_spec i 1); [subst; contradiction|]. reflexivity.
  - rewrite Hm. reflexivity.
Qed.

Lemma iterate_pair p fuel :
  (3 <= fuel)%nat ->
  iterate fuel (NewIter p) = Ok [(VInt 0, First p); (VInt 1, Second p)].
Proof.
  intros H. destruct fuel as [|[|[|fuel]]]; try lia. reflexivity.
Qed.

End PairFacts.

(** C8. A pair is read at index 0 and 1 and at the names [first] and
    [second], every other index or name is an error, the setters accept the
    same keys, and iteration yields (0, first), (1, second) and stops. The
    index is read through [Val.ToIndex], which takes an int as itself and
    rejects the other kinds. *)
Theorem pair_access_and_iteration :
  forall (X : Extern) (p : Pair) (v : Val),
    (forall i, ToIndex (VInt i) = Ok i) ->
    (forall idx, IsInt idx = false -> isErr (ToIndex idx) = true) ->
    (ObjPair.Index p (VInt 0) = Ok (First p) /\
     ObjPair.Index p (VInt 1) = Ok (Second p) /\
     (forall idx, idx <> VInt 0 -> idx <> VInt 1 ->
                  isErr (ObjPair.Index p idx) = true)) /\
    (ObjPair.Dot p "first" = Ok (First p) /\
     ObjPair.Dot p "second" = Ok (Second p) /\
     (forall n, n <> "first" -> n <> "second" -> isErr (ObjPair.Dot p n) = true)) /\
    (ObjPair.IndexSet p (VInt 0) v = Ok {| First := v; Second := Second p |} /\
     ObjPair.IndexSet p (VInt 1) v = Ok {| First := First p; Second := v |} /\
     (forall idx, idx <> VInt 0 -> idx <> VInt 1 ->
                  isErr (ObjPair.IndexSet p idx v) = true)) /\
    (ObjPair.DotSet p "first" v = Ok {| First := v; Second := Second p |} /\
     ObjPair.DotSet p "second" v = Ok {| First := First p; Second := v |} /\
     (forall n, n <> "first" -> n <> "second" ->
                isErr (ObjPair.DotSet p n v) = true)) /\
    (forall fuel, (3 <= fuel)%nat ->
       ObjPair.iterate fuel (ObjPair.NewIter p)
       = Ok [(VInt 0, First p); (VInt 1, Second p)]) /\
    ObjPair.Has (fst (ObjPair.Next (fst (ObjPair.Next (ObjPair.NewIter p))))) = false.
Proof.
  intros X p v Hint Hrej.
  repeat split;
    try (unfold ObjPair.Index, ObjPair.IndexSet; rewrite Hint; reflexivity);
    try reflexivity.
  - intros idx. apply Index_other; assumption.
  - intros n. apply Dot_other.
  - intros idx. apply IndexSet_other; assumption.
  - intros n. apply DotSet_other.
  - intros fuel. apply iterate_pair.
Qed.

Lemma pair_access_and_iteration_witness :
  ObjPair.Index (X := specExtern) {| First := VInt 10; Second := VStr "x" |} (VInt 1)
  = Ok (VStr "x") /\
  ObjPair.iterate 3
    (ObjPair.NewIter {| First := VInt 10; Second := VStr "x" |})
  = Ok [(VInt 0, VInt 10); (VInt 1, VStr "x")].
Proof.
  pose proof (pair_access_and_iteration specExtern
                {| First := VInt 10; Second := VStr "x" |} VNull
                (fun i => eq_refl)
                (fun idx => match idx with
                            | VInt _ => fun H => match Bool.diff_true_false H with end
                            | _ => fun _ => eq_refl
                            end)) as H.
  split.
  - exact (proj1 (proj2 (proj1 H))).
  - exact (proj1 (proj2 (proj2 (proj2 (proj2 H)))) 3%nat (le_n 3)).
Defined.

(* ------------------------------------------------------------------------- *)
(** ** The value stack *)

Lemma Ok_inj {A} (a b : A) : Ok a = Ok b -> a = b.
Proof. intros H. injection H as H. exact H. Qed.

Lemma bind_Ok {A B} (r : Res A) (k : A -> Res B) (b : B) :
  bind r k = Ok b -> exists a, r = Ok a /\ k a = Ok b.
Proof. destruct r; simpl; intros H; try discriminate. eauto. Qed.

Lemma len_app {A} (l1 l2 : list A) : len (l1 ++ l2) = len l1 + len l2.
Proof. unfold len. rewrite length_app. lia. Qed.

Lemma len_nonneg {A} (l : list A) : 0 <= len l.
Proof. unfold len. lia. Qed.

Lemma at_app_last {A} (s : list A) (v : A) : at_ (s ++ [v]) (len s) = Some v.
Proof.
  unfold at_, len. replace (Z.of_nat (List.length s) <? 0) with false
    by (symmetry; apply Z.ltb_ge; lia).
  rewrite Nat2Z.id. rewrite nth_error_app2 by lia.
  rewrite Nat.sub_diag. reflexivity.
Qed.

Lemma take_app_exact {A} (s t : list A) : take (len s) (s ++ t) = s.
Proof.
  unfold take, len. rewrite Nat2Z.id. rewrite firstn_app.
  rewrite Nat.sub_diag. rewrite firstn_all. simpl. apply app_nil_r.
Qed.

Lemma len_take {A} (n : Z) (l : list A) : 0 <= n <= len l -> len (take n l) = n.
Proof.
  unfold take, len. intros H. rewrite length_firstn. lia.
Qed.

Lemma In_take {A} (x : A) (n : Z) (l : list A) : In x (take n l) -> In x l.
Proof.
  unfold take. intros H. rewrite <- (firstn_skipn (Z.to_nat n) l).
  apply in_or_app. left. exact H.
Qed.

(** [top0] succeeds exactly on a stack with a last element. *)
Lemma top0_app e s v : Stack e = (s ++ [v])%list -> top0 e = Ok v.
Proof.
  intros H. unfold top0, topN, stackSize. rewrite H, len_app.
  change (len [v]) with 1.
  replace (0 + 1 <=? len s + 1) with true
    by (symmetry; apply Z.leb_le; pose proof (len_nonneg s); lia).
  replace (len s + 1 - 0 - 1) with (len s) by lia.
  rewrite at_app_last. reflexivity.
Qed.

Lemma top0_inv e v : top0 e = Ok v -> exists s, Stack e = (s ++ [v])%list.
Proof.
  unfold top0, topN, stackSize. intros H.
  destruct (0 + 1 <=? len (Stack e)) eqn:L; [|discriminate].
  apply Z.leb_le in L.
  destruct (Stack e) as [|x l] eqn:E; [unfold len in L; simpl in L; lia|].
  destruct (@exists_last _ (x :: l)) as (s & a & Ea); [discriminate|].
  exists s. rewrite Ea in *. rewrite len_app in H. change (len [a]) with 1 in H.
  replace (len s + 1 - 0 - 1) with (len s) in H by lia.
  rewrite at_app_last in H. apply Ok_inj in H. subst a. reflexivity.
Qed.

Lemma pop_app e s v : Stack e = (s ++ [v])%list -> pop e = Ok (with_Stack e s).
Proof.
  intros H. unfold pop, popN, stackSize. rewrite H, len_app.
  change (len [v]) with 1.
  replace ((0 <=? 1) && (1 <=? len s + 1)) with true
    by (symmetry; apply andb_true_iff; split; apply Z.leb_le;
        pose proof (len_nonneg s); lia).
  replace (len s + 1 - 1) with (len s) by lia.
  rewrite take_app_exact. reflexivity.
Qed.

(* ------------------------------------------------------------------------- *)
(** ** Short-circuit instructions *)

Section ShortCircuit.
Context {X : Extern}.

Lemma runP_Break fuel m prog pc e prog' pc' e' :
  step fuel m prog pc e = Ok (Break prog' pc' e') ->
  runP (S fuel) m prog pc e = runP fuel m prog' (pc' + 1) e'.
Proof. intros H. simpl. rewrite H. reflexivity. Qed.

Lemma step_bcAnd fuel m prog pc e arg s v :
  instr_at prog pc bcAnd arg -> Stack e = (s ++ [v])%list ->
  step fuel m prog pc e
  = if ToBoolean v then Ok (Break prog pc (with_Stack e s))
    else Ok (Break prog (arg - 1) e).
Proof.
  intros Hi Hs. unfold step. rewrite Hi. simpl.
  rewrite (top0_app e s v Hs). simpl.
  destruct (ToBoolean v); simpl; [rewrite (pop_app e s v Hs)|]; reflexivity.
Qed.

Lemma step_bcOr fuel m prog pc e arg s v :
  instr_at prog pc bcOr arg -> Stack e = (s ++ [v])%list ->
  step fuel m prog pc e
  = if ToBoolean v then Ok (Break prog (arg - 1) e)
    else Ok (Break prog pc (with_Stack e s)).
Proof.
  intros Hi Hs. unfold step. rewrite Hi. simpl.
  rewrite (top0_app e s v Hs). simpl.
  destruct (ToBoolean v); simpl; [|rewrite (pop_app e s v Hs)]; reflexivity.
Qed.

End ShortCircuit.

(** C3, the claim at a truthy top under [and] and at a falsy top under [or]:
    the value is not kept and control does not jump; it is popped and the next
    instruction runs. *)
Lemma and_truthy_or_falsy_pop :
  ToBoolean (Extern := specExtern) (VInt 1) = true /\
  ~ keeps_and_jumps (X := specExtern) 0 emptyModule (one_instr bcAnd 5) 0
      (with_top (VInt 1)) 5 /\
  ToBoolean (Extern := specExtern) (VInt 0) = false /\
  ~ keeps_and_jumps (X := specExtern) 0 emptyModule (one_instr bcOr 5) 0
      (with_top (VInt 0)) 5.
Proof.
  unfold keeps_and_jumps.
  repeat split; try (intro H; vm_compute in H; discriminate H).
Qed.

(** C3, amended. [and pc]: if the top of the stack is falsy, keep it and jump
    to [pc]; otherwise pop it and fall through. [or pc] mirrors this: truthy,
    keep and jump; falsy, pop and fall through. *)
Theorem short_circuit_and_or :
  forall (X : Extern) (fuel : nat) (m : Module_) (prog : program) (pc : Z)
         (e : Evaluator) (arg : Z) (v : Val),
    top0 e = Ok v ->
    (instr_at prog pc bcAnd arg ->
       (ToBoolean v = false -> keeps_and_jumps fuel m prog pc e arg) /\
       (ToBoolean v = true -> pops_and_falls_through fuel m prog pc e)) /\
    (instr_at prog pc bcOr arg ->
       (ToBoolean v = true -> keeps_and_jumps fuel m prog pc e arg) /\
       (ToBoolean v = false -> pops_and_falls_through fuel m prog pc e)).
Proof.
  intros X fuel m prog pc e arg v Htop.
  destruct (top0_inv e v Htop) as [s Hs].
  unfold keeps_and_jumps, pops_and_falls_through.
  split; intros Hi.
  - rewrite (step_bcAnd fuel m prog pc e arg s v Hi Hs). split; intros Hb; rewrite Hb.
    + reflexivity.
    + exists s, v. split; [exact Hs | reflexivity].
  - rewrite (step_bcOr fuel m prog pc e arg s v Hi Hs). split; intros Hb; rewrite Hb.
    + reflexivity.
    + exists s, v. split; [exact Hs | reflexivity].
Qed.

Lemma short_circuit_and_or_witness :
  keeps_and_jumps (X := specExtern) 0 emptyModule (one_instr bcAnd 5) 0
    (with_top (VInt 0)) 5 /\
  pops_and_falls_through (X := specExtern) 0 emptyModule (one_instr bcAnd 5) 0
    (with_top (VInt 1)) /\
  keeps_and_jumps (X := specExtern) 0 emptyModule (one_instr bcOr 5) 0
    (with_top (VInt 1)) 5 /\
  pops_and_falls_through (X := specExtern) 0 emptyModule (one_instr bcOr 5) 0
    (with_top (VInt 0)).
Proof.
  pose proof (short_circuit_and_or specExtern 0 emptyModule (one_instr bcAnd 5) 0
                (with_top (VInt 0)) 5 (VInt 0) eq_refl) as A0.
  pose proof (short_circuit_and_or specExtern 0 emptyModule (one_instr bcAnd 5) 0
                (with_top (VInt 1)) 5 (VInt 1) eq_refl) as A1.
  pose proof (short_circuit_and_or specExtern 0 emptyModule (one_instr bcOr 5) 0
                (with_top (VInt 1)) 5 (VInt 1) eq_refl) as O1.
  pose proof (short_circuit_and_or specExtern 0 emptyModule (one_instr bcOr 5) 0
                (with_top (VInt 0)) 5 (VInt 0) eq_refl) as O0.
  split; [|split; [|split]].
  - exact (proj1 (proj1 A0 eq_refl) eq_refl).
  - exact (proj2 (proj1 A1 eq_refl) eq_refl).
  - exact (proj1 (proj2 O1 eq_refl) eq_refl).
  - exact (proj2 (proj2 O0 eq_refl) eq_refl).
Defined.

(* ------------------------------------------------------------------------- *)
(** ** Exception records and unwinding *)

Lemma last_opt_snoc {A} (l : list A) (x : A) : last_opt (l ++ [x]) = Some x.
Proof. unfold last_opt. rewrite rev_unit. reflexivity. Qed.

Lemma last_opt_inv {A} (l : list A) (x : A) :
  last_opt l = Some x -> l = (removelast l ++ [x])%list.
Proof.
  unfold last_opt. intros H.
  destruct l as [|a l]; [discriminate|].
  destruct (@exists_last _ (a :: l)) as (s & y & E); [discriminate|].
  rewrite E in *. rewrite rev_unit in H. apply (f_equal (fun o => match o with Some z => z | None => y end)) in H.
  simpl in H. subst y. rewrite removelast_last. reflexivity.
Qed.

Lemma curExcep_pushExcep h n e :
  curExcep (pushExcep h n e) = Some {| handlerPc := h; stackSize_of := n |}.
Proof. unfold curExcep, pushExcep. simpl. apply last_opt_snoc. Qed.

Lemma popTo_Ok n e e' :
  popTo n e = Ok e' <->
  0 <= n <= stackSize e /\ e' = with_Stack e (take n (Stack e)).
Proof.
  unfold popTo. destruct ((0 <=? n) && (n <=? stackSize e)) eqn:R.
  - apply andb_true_iff in R. destruct R as [R1 R2].
    apply Z.leb_le in R1. apply Z.leb_le in R2. split.
    + intros H. apply Ok_inj in H. split; [lia | congruence].
    + intros [_ H]. congruence.
  - split; [discriminate|]. intros [H _].
    apply andb_false_iff in R. destruct R as [R|R]; apply Z.leb_gt in R; lia.
Qed.

(** With a handler on top of a script frame that may catch, one round of the
    unwind loop truncates the stack to the recorded size and resumes at the
    handler, or faults when the stack is already shorter than that. *)
Lemma unwind_loop_handler fuel breaker err bt e xp :
  can_catch breaker e -> curExcep e = Some xp ->
  unwind_loop (S fuel) breaker err bt e
  = bind (popTo (stackSize_of xp) e)
      (fun e1 =>
         Ok (handlerPc xp, prog_of (curframe e), bt, true,
             with_curframe (with_curexcep e1 (VStr err))
               (with_excep (with_pc (curframe e) (handlerPc xp))
                  (removelast (excep (curframe e)))))).
Proof.
  intros (Ht & Hb & Hs) Hx. cbn [unwind_loop]. rewrite Ht, Hb, Hx, Hs.
  destruct (popTo (stackSize_of xp) e) as [e1| | |] eqn:P; try reflexivity.
  apply popTo_Ok in P. destruct P as [_ ->]. cbn [bind].
  unfold popExcep. cbn.
  destruct (excep (curframe e)) eqn:E.
  - unfold curExcep in Hx. rewrite E in Hx. discriminate.
  - reflexivity.
Qed.

(** X1. Whatever live frame catches during an unwinding, the stack is left at
    the size that frame's current handler recorded, and the run resumes at
    that handler's pc. *)
Lemma unwind_caught_size fuel breaker err :
  forall bt e pc prog bt' e',
    unwind_loop fuel breaker err bt e = Ok (pc, prog, bt', true, e') ->
    exists f xp, live_frame e f /\ last_opt (excep f) = Some xp /\
                 stackSize e' = stackSize_of xp /\ pc = handlerPc xp.
Proof.
  induction fuel as [|fuel IH]; intros bt e pc prog bt' e' H; [discriminate|].
  cbn [unwind_loop] in H.
  destruct (isTop (curframe e)) eqn:Ht; [apply Ok_inj in H; congruence|].
  destruct (breaker e) eqn:Hb; [apply Ok_inj in H; congruence|].
  assert (Hunwind :
    forall r,
      bind (prevfuncframe e) (fun pframe =>
        let bt1 := if negb (isTop pframe) then (bt ++ [pframe])%list else bt in
        bind (popfuncframe pframe e) (fun '(_, _, e1) =>
          unwind_loop fuel breaker err bt1 e1)) = Ok r ->
      r = (pc, prog, bt', true, e') ->
      exists f xp, live_frame e f /\ last_opt (excep f) = Some xp /\
                   stackSize e' = stackSize_of xp /\ pc = handlerPc xp).
  { intros r Hr ->. apply bind_Ok in Hr. destruct Hr as (pframe & Hp & Hr).
    cbv zeta in Hr. apply bind_Ok in Hr. destruct Hr as ([[pc1 prog1] e1] & Hq & Hr).
    apply IH in Hr. destruct Hr as (f & xp & Hl & Hx & Hsz & Hpc).
    exists f, xp. repeat split; try assumption.
    unfold popfuncframe in Hq. apply bind_Ok in Hq. destruct Hq as (e0 & Hq0 & Hq).
    apply Ok_inj in Hq. apply popTo_Ok in Hq0. destruct Hq0 as [_ ->].
    assert (He1 : e1 = with_curframe (with_Stack e (take (framep (curframe e)) (Stack e))) pframe)
      by congruence.
    subst e1. unfold prevfuncframe in Hp.
    destruct (at_ (Stack e) (prevframepos e)) as [[]|] eqn:A; try discriminate Hp.
    apply Ok_inj in Hp. subst ff.
    destruct Hl as [Hl|Hl].
    - right. subst f. cbn.
      unfold at_ in A. destruct (prevframepos e <? 0); [discriminate|].
      eapply nth_error_In. exact A.
    - right. cbn in Hl. eapply In_take. exact Hl. }
  destruct (curExcep e) as [xp|] eqn:Hx.
  - destruct (isScript (curframe e)) eqn:Hs.
    + clear Hunwind.
      apply bind_Ok in H. destruct H as (e1 & P & H).
      apply popTo_Ok in P. destruct P as [R ->].
      apply bind_Ok in H. destruct H as (e4 & P4 & H).
      apply Ok_inj in H.
      exists (curframe e), xp. split; [left; reflexivity|].
      split; [exact Hx|].
      assert (He : e' = e4) by congruence. subst e4.
      assert (Hpc : pc = handlerPc xp) by congruence.
      split; [|exact Hpc].
      unfold popExcep in P4. cbn in P4.
      destruct (excep (curframe e)); [discriminate|].
      apply Ok_inj in P4. subst e'. unfold stackSize. cbn.
      apply len_take. exact R.
    + eapply Hunwind; [exact H | reflexivity].
  - eapply Hunwind; [exact H | reflexivity].
Qed.

Lemma unwind_caught_size_witness :
  exists e' f xp,
    live_frame mid_expression f /\ last_opt (excep f) = Some xp /\
    stackSize e' = stackSize_of xp /\ 6 = handlerPc xp.
Proof.
  eexists.
  eapply (unwind_caught_size 1 rule_breaker "divide zero"
            [curframe mid_expression] mid_expression 6).
  vm_compute. reflexivity.
Defined.

(** C2. [pushException h] records the current stack size in the frame; when
    a later operation of that frame fails while this handler is the frame's
    current one, whatever the unwinding returns is a catch that resumes at
    [h] with the stack at exactly the recorded size, and the unwinding does
    return as long as the stack has not shrunk below that size. *)
Theorem exception_recovery :
  forall (X : Extern) (fuel : nat) (m : Module_) (prog : program) (pc h : Z)
         (e0 e : Evaluator) (rounds : nat) (breaker : Evaluator -> bool)
         (err : string),
    instr_at prog pc bcPushException h ->
    excep (curframe e) = excep (curframe (pushExcep h (stackSize e0) e0)) ->
    can_catch breaker e ->
    step fuel m prog pc e0 = Ok (Break prog pc (pushExcep h (stackSize e0) e0)) /\
    (forall pc' prog' bt caught e',
       unwindForExcep (S rounds) breaker err e = Ok (pc', prog', bt, caught, e') ->
       caught = true /\ pc' = h /\ prog' = prog_of (curframe e) /\
       stackSize e' = stackSize e0 /\
       Stack e' = take (stackSize e0) (Stack e) /\
       curexcep e' = VStr err /\
       excep (curframe e') = excep (curframe e0)) /\
    (stackSize e0 <= stackSize e ->
     exists e', unwindForExcep (S rounds) breaker err e
                = Ok (h, prog_of (curframe e), [curframe e], true, e')).
Proof.
  intros X fuel m prog pc h e0 e rounds breaker err Hi Hex Hc.
  assert (Hx : curExcep e = Some {| handlerPc := h; stackSize_of := stackSize e0 |}).
  { unfold curExcep. rewrite Hex. apply curExcep_pushExcep. }
  split; [|split].
  - unfold step. rewrite Hi. reflexivity.
  - intros pc' prog' bt caught e' H. unfold unwindForExcep in H.
    rewrite (unwind_loop_handler rounds breaker err [curframe e] e _ Hc Hx) in H.
    apply bind_Ok in H. destruct H as (e1 & P & H).
    apply popTo_Ok in P. cbn [stackSize_of handlerPc] in P, H. destruct P as [R ->].
    apply Ok_inj in H.
    assert (E' : e' = with_curframe
                        (with_curexcep (with_Stack e (take (stackSize e0) (Stack e)))
                           (VStr err))
                        (with_excep (with_pc (curframe e) h)
                           (removelast (excep (curframe e)))))
      by congruence.
    assert (Ec : caught = true) by congruence.
    assert (Ep : pc' = h) by congruence.
    assert (Eg : prog' = prog_of (curframe e)) by congruence.
    subst e'. repeat split; try assumption.
    + unfold stackSize at 1. cbn. apply len_take. exact R.
    + cbn. rewrite Hex. cbn. apply removelast_last.
  - intros Hsz. unfold unwindForExcep.
    rewrite (unwind_loop_handler rounds breaker err [curframe e] e _ Hc Hx).
    cbn [stackSize_of handlerPc].
    assert (P : popTo (stackSize e0) e
                = Ok (with_Stack e (take (stackSize e0) (Stack e)))).
    { apply popTo_Ok. split; [|reflexivity].
      split; [apply len_nonneg | exact Hsz]. }
    rewrite P. cbn [bind]. eexists. reflexivity.
Qed.

Lemma exception_recovery_witness :
  exists e',
    unwindForExcep 1 rule_breaker "divide zero" mid_expression
    = Ok (6, prog_of (curframe mid_expression), [curframe mid_expression], true, e').
Proof.
  exact (proj2 (proj2
           (exception_recovery specExtern 0 emptyModule try_prog 0 6
              (entered try_prog VNull) mid_expression 0 rule_breaker "divide zero"
              eq_refl eq_refl (conj eq_refl (conj eq_refl eq_refl))))
           ltac:(vm_compute; discriminate)).
Defined.

(** The whole of [try { 1/0 } catch e { return e }] as a rule: the error is
    caught, and the rule returns the message. *)
Example try_catch_runs :
  exists e',
    runRuleImpl (X := specExtern) 20 emptyModule VNull try_prog
      (NewEvaluator (Some 0%nat) None)
    = Ok (VStr "divide zero", None, false, e').
Proof. eexists. vm_compute. reflexivity. Qed.

(* ------------------------------------------------------------------------- *)
(** ** What a run leaves alone: the host's callbacks and the drain flag *)

Ltac res_inv :=
  repeat match goal with
  | H : bind _ _ = Ok _ |- _ =>
      let a := fresh "a" in
      let Ha := fresh "Ha" in
      apply bind_Ok in H; destruct H as (a & Ha & H)
  | H : Ok _ = Ok _ |- _ => apply Ok_inj in H
  | H : Fault _ = Ok _ |- _ => discriminate H
  | H : Err _ = Ok _ |- _ => discriminate H
  | H : OutOfFuel = Ok _ |- _ => discriminate H
  | H : (if ?c then _ else _) = Ok _ |- _ => destruct c eqn:?
  | H : match ?x with _ => _ end = Ok _ |- _ => destruct x eqn:?
  end.

Lemma popN_host n e e' : popN n e = Ok e' -> host_of e' = host_of e.
Proof. unfold popN. intros H. res_inv. subst e'. reflexivity. Qed.

Lemma popTo_host n e e' : popTo n e = Ok e' -> host_of e' = host_of e.
Proof. unfold popTo. intros H. res_inv. subst e'. reflexivity. Qed.

Lemma popExcep_host e e' : popExcep e = Ok e' -> host_of e' = host_of e.
Proof. unfold popExcep. intros H. res_inv. subst e'. reflexivity. Qed.

Lemma popfuncframe_host prev e pc prog e' :
  popfuncframe prev e = Ok (pc, prog, e') -> host_of e' = host_of e.
Proof.
  unfold popfuncframe. intros H. res_inv. apply popTo_host in Ha.
  assert (E : e' = with_curframe a prev) by congruence. subst e'. exact Ha.
Qed.

Lemma epilogue_host v e pc prog e' :
  epilogue v e = Ok (pc, prog, e') -> host_of e' = host_of e.
Proof.
  unfold epilogue. intros H. res_inv. subst.
  apply popfuncframe_host in Ha0.
  assert (E : e' = push v e0) by congruence. subst e'. exact Ha0.
Qed.

Ltac host_facts :=
  repeat match goal with
  | H : popN _ _ = Ok _ |- _ => apply popN_host in H
  | H : pop _ = Ok _ |- _ => apply popN_host in H
  | H : popTo _ _ = Ok _ |- _ => apply popTo_host in H
  | H : popExcep _ = Ok _ |- _ => apply popExcep_host in H
  | H : epilogue _ _ = Ok _ |- _ => apply epilogue_host in H
  | H : popfuncframe _ _ = Ok _ |- _ => apply popfuncframe_host in H
  end.

Section HostFacts.
Context {X : Extern}.

Lemma step_host fuel m prog pc e s :
  step fuel m prog pc e = Ok s -> host_of (ev_of s) = host_of e.
Proof.
  unfold step, jump_if. intros H.
  destruct (at_ (bcList prog) pc) as [bc|]; [|discriminate].
  destruct (opcode_of bc); res_inv; subst; host_facts;
    unfold host_of in *; cbn in *; congruence.
Qed.

Lemma runP_host fuel : forall m prog pc e rr e',
  runP fuel m prog pc e = Ok (rr, e') -> host_of e' = host_of e.
Proof.
  induction fuel as [|fuel IH]; intros m prog pc e rr e' H; [discriminate|].
  cbn [runP] in H. apply bind_Ok in H. destruct H as (s & Hs & H).
  apply step_host in Hs.
  destruct s; cbn [ev_of] in Hs.
  - apply IH in H. congruence.
  - apply IH in H. congruence.
  - apply Ok_inj in H. congruence.
Qed.

End HostFacts.

Lemma unwind_loop_host fuel breaker err : forall bt e r e',
  unwind_loop fuel breaker err bt e = Ok (r, e') -> host_of e' = host_of e.
Proof.
  induction fuel as [|fuel IH]; intros bt e r e' H; [discriminate|].
  cbn [unwind_loop] in H.
  destruct (isTop (curframe e)); [apply Ok_inj in H; congruence|].
  destruct (breaker e); [apply Ok_inj in H; congruence|].
  assert (Hunwind :
    bind (prevfuncframe e) (fun pframe =>
      let bt1 := if negb (isTop pframe) then (bt ++ [pframe])%list else bt in
      bind (popfuncframe pframe e) (fun '(_, _, e1) =>
        unwind_loop fuel breaker err bt1 e1)) = Ok (r, e') ->
    host_of e' = host_of e).
  { intros Hr. apply bind_Ok in Hr. destruct Hr as (pframe & _ & Hr).
    cbv zeta in Hr. apply bind_Ok in Hr. destruct Hr as ([[pc1 prog1] e1] & Hq & Hr).
    apply IH in Hr. apply popfuncframe_host in Hq. congruence. }
  destruct (curExcep e) as [xp|]; [|exact (Hunwind H)].
  destruct (isScript (curframe e)); [|exact (Hunwind H)].
  clear Hunwind. res_inv. host_facts.
  assert (E : e' = a0) by congruence. subst a0.
  unfold host_of in *; cbn in *; congruence.
Qed.

Section RuleFacts.
Context {X : Extern}.

Lemma recover_host rounds fuel m : forall prog pc e r e',
  recover rounds fuel m prog pc e = Ok (r, e') -> host_of e' = host_of e.
Proof.
  induction rounds as [|rounds IH]; intros prog pc e r e' H; [discriminate|].
  cbn [recover] in H. apply bind_Ok in H. destruct H as ([rr e1] & Hrun & H).
  apply runP_host in Hrun.
  destruct (isDone rr).
  - res_inv. host_facts. assert (E : e' = a0) by congruence. subst a0. congruence.
  - destruct (isNextRule rr).
    + apply Ok_inj in H. assert (E : e' = e1) by congruence. subst e1. exact Hrun.
    + destruct (rr_e rr) as [err|]; [|discriminate].
      apply bind_Ok in H. destruct H as ([[[[a b] c] d] e2] & Hu & H).
      apply unwind_loop_host in Hu.
      destruct d.
      * destruct b as [prog'|]; [|discriminate]. apply IH in H. congruence.
      * apply Ok_inj in H. assert (E : e' = e2) by congruence. subst e2. congruence.
Qed.

Lemma runRuleImpl_host fuel m event prog e r e' :
  runRuleImpl fuel m event prog e = Ok (r, e') -> host_of e' = host_of e.
Proof.
  unfold runRuleImpl. destruct (Context_ e); [|discriminate].
  intros H. apply recover_host in H. exact H.
Qed.

Lemma runRuleList_host fuel m event : forall progs e r e',
  runRuleList fuel m event progs e = Ok (r, e') -> host_of e' = host_of e.
Proof.
  induction progs as [|p ps IH]; intros e r e' H; cbn [runRuleList] in H.
  - apply Ok_inj in H. congruence.
  - apply bind_Ok in H. destruct H as ([[[v err] next] e1] & Hr & H).
    apply runRuleImpl_host in Hr. destruct next.
    + apply IH in H. congruence.
    + apply Ok_inj in H. congruence.
Qed.

Lemma runRule_host fuel m event prog e r e' :
  runRule fuel m event prog e = Ok (r, e') -> host_of e' = host_of e.
Proof.
  unfold runRule. intros H. apply bind_Ok in H.
  destruct H as ([[[v err] next] e1] & Hr & H).
  apply runRuleImpl_host in Hr. apply Ok_inj in H. congruence.
Qed.

Lemma run_each_host fuel m : forall progs e r e',
  run_each fuel m progs e = Ok (r, e') -> host_of e' = host_of e.
Proof.
  induction progs as [|p ps IH]; intros e r e' H; cbn [run_each] in H.
  - apply Ok_inj in H. congruence.
  - apply bind_Ok in H. destruct H as ([[v err] e1] & Hr & H).
    apply runRule_host in Hr. destruct err.
    + apply Ok_inj in H. congruence.
    + apply IH in H. congruence.
Qed.

Lemma EvalDeferred_host fuel name context m e r e' :
  EvalDeferred fuel name context m e = Ok (r, e') -> host_of e' = host_of e.
Proof.
  unfold EvalDeferred. destruct (findEvent m name).
  - apply runRuleList_host.
  - intros H. apply Ok_inj in H. congruence.
Qed.

(** Without an error callback the status stays [Continue], and a drain that
    returns has emptied the queue. *)
Lemma Drain_empties fuel m : forall e status e',
  Event e = None ->
  Drain fuel m 0 e = Ok (status, e') ->
  status = 0 /\ eventQ e' = [] /\ host_of e' = host_of e.
Proof.
  induction fuel as [|fuel IH]; intros e status e' Hev H; [discriminate|].
  cbn [Drain] in H. destruct (eventQ e) as [|[name context] rest] eqn:Q.
  - apply Ok_inj in H. assert (E : e' = e) by congruence. subst e'.
    repeat split; congruence.
  - apply bind_Ok in H. destruct H as ([[v err] e1] & Hd & H).
    apply EvalDeferred_host in Hd.
    assert (Hev1 : Event e1 = None).
    { unfold host_of in Hd. cbn in Hd. congruence. }
    assert (Hh : host_of e1 = host_of e) by exact Hd.
    destruct err as [er|].
    + unfold drain_callback in H. rewrite Hev1 in H.
      change (0 =? EventContextContinue) with true in H. cbv iota beta in H.
      destruct (IH _ _ _ Hev1 H) as (S1 & S2 & S3). repeat split; congruence.
    + destruct (IH _ _ _ Hev1 H) as (S1 & S2 & S3). repeat split; congruence.
Qed.

Lemma drainEventQueue_idle fuel m e e' :
  Event e = None -> inEventQueue e = false ->
  drainEventQueue fuel m e = Ok e' ->
  eventQ e' = [] /\ inEventQueue e' = false.
Proof.
  intros Hev Hin H. unfold drainEventQueue in H. rewrite Hin in H.
  apply bind_Ok in H. destruct H as ([status e2] & Hd & H).
  apply Drain_empties in Hd; [|exact Hev]. destruct Hd as (-> & Q & _).
  change (0 =? EventContextStopAndClear) with false in H. cbv iota in H.
  apply Ok_inj in H. subst e'. split; [exact Q | reflexivity].
Qed.

(** A drain entered while one is in progress returns at once. *)
Lemma drainEventQueue_reentrant fuel m e :
  inEventQueue e = true -> drainEventQueue fuel m e = Ok e.
Proof. intros H. unfold drainEventQueue. rewrite H. reflexivity. Qed.

Lemma deferred_drain_drains {A} fuel m (body : Evaluator -> Res (A * Evaluator)) :
  (forall e a e', body e = Ok (a, e') -> host_of e' = host_of e) ->
  drains_after (fun e => deferred_drain fuel m (body e)).
Proof.
  intros Hbody e a e' Hev Hin H. unfold deferred_drain in H.
  apply bind_Ok in H. destruct H as ([a1 e1] & Hb & H).
  apply bind_Ok in H. destruct H as (e2 & Hd & H).
  apply Ok_inj in H. assert (E : e' = e2) by congruence. subst e2.
  apply Hbody in Hb. unfold host_of in Hb.
  apply (drainEventQueue_idle fuel m e1); [congruence | congruence | exact Hd].
Qed.

(** [EvalWithContext] is [EvalDeferred] followed by the drain. *)
Lemma EvalWithContext_unfold fuel event context m e :
  EvalWithContext fuel event context m e
  = bind (EvalDeferred fuel event context m e)
      (fun '(v, err, e1) =>
         bind (drainEventQueue fuel m e1) (fun e2 => Ok ((v, err), e2))).
Proof.
  unfold EvalWithContext, EvalDeferred, deferred_drain.
  destruct (findEvent m event) as [plist|]; [|reflexivity].
  destruct (runRuleList fuel m context plist e) as [[[v err] e1]| | |];
    reflexivity.
Qed.

(** [emit] only appends to the queue. *)
Lemma step_bcEmit fuel m prog pc e arg s name context :
  instr_at prog pc bcEmit arg ->
  Stack e = (s ++ [VStr name; context])%list ->
  step fuel m prog pc e
  = Ok (Break prog pc
          (with_eventQ (with_Stack e s) (eventQ e ++ [(name, context)])%list)).
Proof.
  intros Hi Hs. unfold step. rewrite Hi. cbn [opcode_of argument].
  assert (H0 : top0 e = Ok context).
  { apply (top0_app e (s ++ [VStr name])%list context).
    rewrite Hs. rewrite <- app_assoc. reflexivity. }
  assert (H1 : top1 e = Ok (VStr name)).
  { unfold top1, topN, stackSize. rewrite Hs. rewrite len_app.
    change (len [VStr name; context]) with 2.
    replace (1 + 1 <=? len s + 2) with true
      by (symmetry; apply Z.leb_le; pose proof (len_nonneg s); lia).
    replace (len s + 2 - 1 - 1) with (len s) by lia.
    change (s ++ [VStr name; context])%list
      with (s ++ ([VStr name] ++ [context]))%list.
    rewrite app_assoc. unfold at_.
    replace (len s <? 0) with false
      by (symmetry; apply Z.ltb_ge; apply len_nonneg).
    unfold len. rewrite Nat2Z.id.
    rewrite nth_error_app1 by (rewrite length_app; simpl; lia).
    rewrite nth_error_app2 by lia. rewrite Nat.sub_diag. reflexivity. }
  assert (H2 : popN 2 e = Ok (with_Stack e s)).
  { unfold popN, stackSize. rewrite Hs. rewrite len_app.
    change (len [VStr name; context]) with 2.
    replace ((0 <=? 2) && (2 <=? len s + 2)) with true
      by (symmetry; apply andb_true_iff; split; apply Z.leb_le;
          pose proof (len_nonneg s); lia).
    replace (len s + 2 - 2) with (len s) by lia.
    rewrite take_app_exact. reflexivity. }
  rewrite H0, H1, H2. reflexivity.
Qed.

End RuleFacts.

(* ------------------------------------------------------------------------- *)
(** ** Rule chaining *)

Section ChainFacts.
Context {X : Extern}.



End ChainFacts.



(** The third rule of the list never ran: the session it writes is empty,
    and the event the first rule emitted is still queued. *)
Example chain_stops_at_B :
  exists e2,
    runRuleList (X := specExtern) 20 sampleModule VNull [ruleA; ruleB; ruleC]
      freshEvaluator
    = Ok (VInt 7, None, e2) /\
    Session e2 = [] /\ eventQ e2 = [("child", VNull)].
Proof. eexists. split; [vm_compute; reflexivity | split; reflexivity]. Qed.

(* ------------------------------------------------------------------------- *)
(** ** Entry points and the event queue *)

(** C1, the claim at [EvalConfig]: the event a config program emits is still
    in the queue when [EvalConfig] returns; no drain ran. *)
Lemma with_inEventQueue_again e :
  inEventQueue e = true -> with_inEventQueue (with_inEventQueue e false) true = e.
Proof. destruct e. cbn. intros ->. reflexivity. Qed.

Lemma with_inEventQueue_back e :
  inEventQueue e = false -> with_inEventQueue (with_inEventQueue e true) false = e.
Proof. destruct e. cbn. intros ->. reflexivity. Qed.

(** A drain of a queue with nothing in it changes nothing. *)
Lemma drainEventQueue_nothing_queued {X : Extern} fuel m e :
  inEventQueue e = false -> eventQ e = [] ->
  drainEventQueue (S fuel) m e = Ok e.
Proof.
  intros Hin Hq. unfold drainEventQueue. rewrite Hin. cbn [Drain].
  change (eventQ (with_inEventQueue e true)) with (eventQ e). rewrite Hq.
  cbn [bind]. change (0 =? EventContextStopAndClear) with false. cbv iota.
  rewrite with_inEventQueue_back by exact Hin. reflexivity.
Qed.

(** A drain dispatches the oldest event through [EvalDeferred], taken off
    the queue and with the drain flag set, and then does [after_dispatch]. *)
Lemma drainEventQueue_dispatches {X : Extern} fuel m e name context rest :
  inEventQueue e = false -> eventQ e = (name, context) :: rest ->
  drainEventQueue (S fuel) m e
  = bind (EvalDeferred fuel name context m
            (with_eventQ (with_inEventQueue e true) rest))
      (fun '(_, err, e1) => after_dispatch fuel m name err e1).
Proof.
  intros Hin Hq. unfold drainEventQueue at 1. rewrite Hin. cbn [Drain].
  change (eventQ (with_inEventQueue e true)) with (eventQ e). rewrite Hq.
  destruct (EvalDeferred fuel name context m
              (with_eventQ (with_inEventQueue e true) rest))
    as [[[v err] e1]| | |] eqn:Hd; cbn [bind]; try reflexivity.
  apply EvalDeferred_host in Hd.
  assert (Hflag : inEventQueue e1 = true).
  { unfold host_of in Hd. cbn in Hd. congruence. }
  assert (Hgo : bind (Drain fuel m 0 e1)
                  (fun '(status, e2) =>
                     Ok (with_inEventQueue
                           (if status =? EventContextStopAndClear
                            then Clear e2 else e2) false))
                = drainEventQueue fuel m (with_inEventQueue e1 false)).
  { unfold drainEventQueue. cbn [inEventQueue with_inEventQueue].
    rewrite with_inEventQueue_again by exact Hflag. reflexivity. }
  unfold after_dispatch. destruct err as [er|]; [|exact Hgo].
  destruct (drain_callback e1 0 name (error_message er)) as [status' continue] eqn:Hc.
  destruct continue; [|reflexivity].
  unfold drain_callback in Hc.
  assert (Hs : status' = 0).
  { cbv zeta in Hc. injection Hc as H1 H2. rewrite H1 in H2.
    apply Z.eqb_eq in H2. exact H2. }
  subst status'. exact Hgo.
Qed.

Lemma EvalConfig_leaves_events_queued :
  ~ drains_after (EvalConfig (X := specExtern) 20 sampleModule).
Proof.
  intros H.
  assert (E : exists a e',
             EvalConfig (X := specExtern) 20 sampleModule freshEvaluator = Ok (a, e') /\
             eventQ e' = [("child", VNull)]).
  { do 2 eexists. split; [vm_compute; reflexivity | reflexivity]. }
  destruct E as (a & e' & E & Q).
  destruct (H freshEvaluator a e' eq_refl eq_refl E) as [H1 _].
  rewrite Q in H1. discriminate H1.
Qed.

(** C1, amended. [Eval], [EvalWithContext], [EvalGlobal] and [EvalSession]
    call [drainEventQueue] after their rules have run: each answers what its
    rules answered, on the evaluator [drainEventQueue] left. That drain
    dispatches the oldest queued event through [EvalDeferred], with the
    drain flag set, and goes on with the rest, so that when the entry point
    returns no event is left queued. [EvalConfig] runs its rule and returns.
    A [drainEventQueue] entered while a drain is in progress returns at once,
    leaving the evaluator as it is; and [emit] only appends the event to the
    queue. *)
Theorem entry_points_drain :
  forall (X : Extern) (fuel : nat) (m : Module_),
    (forall event, drains_after (Eval_ fuel event m)) /\
    (forall event context, drains_after (EvalWithContext fuel event context m)) /\
    drains_after (EvalGlobal fuel m) /\
    drains_after (EvalSession fuel m) /\
    (forall event context e,
        Eval_ fuel event m e = EvalWithContext fuel event VNull m e /\
        EvalWithContext fuel event context m e
        = bind (EvalDeferred fuel event context m e)
            (fun '(v, err, e1) =>
               bind (drainEventQueue fuel m e1) (fun e2 => Ok ((v, err), e2)))) /\
    (forall e cfg h,
        config m = Some cfg -> Config_ e = Some h ->
        EvalConfig fuel m e
        = bind (runRule fuel m VNull cfg e) (fun '(_, err, e1) => Ok (err, e1))) /\
    (forall e, inEventQueue e = true -> drainEventQueue fuel m e = Ok e) /\
    (forall prog pc e arg s name context,
        instr_at prog pc bcEmit arg ->
        Stack e = (s ++ [VStr name; context])%list ->
        step fuel m prog pc e
        = Ok (Break prog pc
                (with_eventQ (with_Stack e s) (eventQ e ++ [(name, context)])%list))) /\
    (forall event,
        calls_drain fuel m (Eval_ fuel event m) (EvalDeferred fuel event VNull m)) /\
    (forall event context,
        calls_drain fuel m (EvalWithContext fuel event context m)
          (EvalDeferred fuel event context m)) /\
    calls_drain fuel m (EvalGlobal fuel m)
      (fun e => if HasGlobal m then run_each fuel m (globalProgram m) e
                else Ok (None, e)) /\
    calls_drain fuel m (EvalSession fuel m)
      (fun e => if HasSession m
                then run_each fuel m (session m) (with_Session e [])
                else Ok (None, e)) /\
    (forall e,
        inEventQueue e = false -> eventQ e = [] ->
        drainEventQueue (S fuel) m e = Ok e) /\
    (forall e name context rest,
        inEventQueue e = false -> eventQ e = (name, context) :: rest ->
        drainEventQueue (S fuel) m e
        = bind (EvalDeferred fuel name context m
                  (with_eventQ (with_inEventQueue e true) rest))
            (fun '(_, err, e1) => after_dispatch fuel m name err e1)).
Proof.
  intros X fuel m.
  repeat apply conj.
  - intros event.
    apply (deferred_drain_drains fuel m
             (fun e => match findEvent m event with
                       | Some plist =>
                           bind (runRuleList fuel m VNull plist e)
                             (fun '(v, err, e1) => Ok ((v, err), e1))
                       | None => Ok ((VNull, None), e)
                       end)).
    intros e a e' H. destruct (findEvent m event).
    + apply bind_Ok in H. destruct H as ([[v err] e1] & Hr & H).
      apply runRuleList_host in Hr. apply Ok_inj in H. congruence.
    + apply Ok_inj in H. congruence.
  - intros event context.
    apply (deferred_drain_drains fuel m
             (fun e => match findEvent m event with
                       | Some plist =>
                           bind (runRuleList fuel m context plist e)
                             (fun '(v, err, e1) => Ok ((v, err), e1))
                       | None => Ok ((VNull, None), e)
                       end)).
    intros e a e' H. destruct (findEvent m event).
    + apply bind_Ok in H. destruct H as ([[v err] e1] & Hr & H).
      apply runRuleList_host in Hr. apply Ok_inj in H. congruence.
    + apply Ok_inj in H. congruence.
  - apply (deferred_drain_drains fuel m
             (fun e => if negb (HasGlobal m) then Ok (None, e)
                       else run_each fuel m (globalProgram m) e)).
    intros e a e' H. destruct (negb (HasGlobal m)).
    + apply Ok_inj in H. congruence.
    + apply run_each_host in H. exact H.
  - apply (deferred_drain_drains fuel m
             (fun e => if negb (HasSession m) then Ok (None, e)
                       else run_each fuel m (session m) (with_Session e []))).
    intros e a e' H. destruct (negb (HasSession m)).
    + apply Ok_inj in H. congruence.
    + apply run_each_host in H. exact H.
  - intros event context e. split; [reflexivity|].
    apply EvalWithContext_unfold.
  - intros e cfg h Hc He. unfold EvalConfig. rewrite Hc, He. reflexivity.
  - intros e. apply drainEventQueue_reentrant.
  - intros prog pc e arg s name context. apply step_bcEmit.
  - intros event e. unfold Eval_, EvalDeferred, deferred_drain.
    destruct (findEvent m event) as [plist|]; [|reflexivity].
    destruct (runRuleList fuel m VNull plist e) as [[[v err] e1]| | |];
      reflexivity.
  - intros event context e. unfold EvalWithContext, EvalDeferred, deferred_drain.
    destruct (findEvent m event) as [plist|]; [|reflexivity].
    destruct (runRuleList fuel m context plist e) as [[[v err] e1]| | |];
      reflexivity.
  - intros e. unfold EvalGlobal, deferred_drain.
    destruct (HasGlobal m); reflexivity.
  - intros e. unfold EvalSession, deferred_drain.
    destruct (HasSession m); reflexivity.
  - intros e. apply drainEventQueue_nothing_queued.
  - intros e name context rest. apply drainEventQueue_dispatches.
Qed.

(** Rules [A] and [B] on the event "e", [A] emitting "child": the evaluation
    returns 7, and by then the deferred "child" has been dispatched (its rule
    wrote the session) and the queue is empty. *)
Example eval_then_drain :
  exists e',
    Eval_ (X := specExtern) 20 "e" sampleModule freshEvaluator
    = Ok ((VInt 7, None), e') /\
    Session e' = [VInt 5] /\ eventQ e' = [] /\ inEventQueue e' = false.
Proof. eexists. split; [vm_compute; reflexivity | repeat split; reflexivity]. Qed.

(* ========================================================================= *)
(** * Further properties of the queries *)

(* ------------------------------------------------------------------------- *)
(** ** Anchors *)

Lemma at_0_cons {A} (x : A) (l : list A) : at_ (x :: l) 0 = Some x.
Proof. reflexivity. Qed.

Lemma len_cons {A} (x : A) (l : list A) : len (x :: l) = len l + 1.
Proof. unfold len. cbn [List.length]. lia. Qed.

Lemma len_cons_nonzero {A} (x : A) (l : list A) : (len (x :: l) =? 0) = false.
Proof. apply Z.eqb_neq. rewrite len_cons. pose proof (len_nonneg l). lia. Qed.

(** X4. [q::first], [q::rest] and [q::last] take a list apart: a non-empty
    list is its first element followed by its rest, and its last element is
    the one at the end; on the empty list [q::first] and [q::last] fail with
    "list is empty" while [q::rest] is the empty list; on a pair they are the
    first slot, the one-element list of the second slot, and the second
    slot. *)
Theorem anchors_take_a_list_apart :
  forall (x y a b : Val) (r s : list Val),
    qFirst (VList (x :: r)) = Ok x /\
    qRest (VList (x :: r)) = Ok (VList r) /\
    qLast (VList (s ++ [y])) = Ok y /\
    qFirst (VList []) = Err "list is empty" /\
    qLast (VList []) = Err "list is empty" /\
    qRest (VList []) = Ok (VList []) /\
    qFirst (VPair a b) = Ok a /\
    qLast (VPair a b) = Ok b /\
    qRest (VPair a b) = Ok (VList [b]).
Proof.
  intros x y a b r s.
  split; [|split; [|split]]; [| |  | repeat split].
  - unfold qFirst. rewrite len_cons_nonzero. reflexivity.
  - unfold qRest. rewrite len_cons_nonzero. reflexivity.
  - unfold qLast. rewrite len_app. change (len [y]) with 1.
    replace (len s + 1 =? 0) with false
      by (symmetry; apply Z.eqb_neq; pose proof (len_nonneg s); lia).
    replace (len s + 1 - 1) with (len s) by lia.
    rewrite at_app_last. reflexivity.
Qed.

(* ------------------------------------------------------------------------- *)
(** ** Aggregates *)

Lemma wrap64_add_l a b : wrap64 (wrap64 a + b) = wrap64 (a + b).
Proof.
  unfold wrap64. f_equal.
  replace ((a + 2 ^ 63) mod 2 ^ 64 - 2 ^ 63 + b + 2 ^ 63)
    with ((a + 2 ^ 63) mod 2 ^ 64 + b) by ring.
  replace (a + b + 2 ^ 63) with (a + 2 ^ 63 + b) by ring.
  apply Z.add_mod_idemp_l. lia.
Qed.

Lemma no_number_cons v l : no_number (v :: l) -> IsNumber v = false /\ no_number l.
Proof.
  intros H. split; [apply H; left; reflexivity|].
  intros w Hw. apply H. right. exact Hw.
Qed.

Lemma ints_of_no_number l : no_number l -> ints_of l = [].
Proof.
  induction l as [|v l IH]; intros H; [reflexivity|].
  apply no_number_cons in H. destruct H as [Hv Hl].
  destruct v; try discriminate Hv; simpl; apply IH; exact Hl.
Qed.

Lemma firstNum_from_none l : forall k,
  no_number l -> firstNum_from l k = (0, 0%float, isnone, -1).
Proof.
  induction l as [|v l IH]; intros k H; [reflexivity|].
  apply no_number_cons in H. destruct H as [Hv Hl].
  destruct v; try discriminate Hv; simpl; apply IH; exact Hl.
Qed.

Lemma firstNum_from_int pre i post : forall k,
  no_number pre ->
  firstNum_from (pre ++ VInt i :: post) k = (i, 0%float, isint, k + len pre).
Proof.
  induction pre as [|v pre IH]; intros k H.
  - simpl. unfold len. simpl. f_equal. lia.
  - apply no_number_cons in H. destruct H as [Hv Hl].
    rewrite len_cons.
    destruct v; try discriminate Hv; simpl; rewrite IH by exact Hl;
      f_equal; lia.
Qed.

Lemma slice_from_after pre (x : Val) post :
  slice_from (pre ++ x :: post) (0 + len pre + 1) = post.
Proof.
  unfold slice_from, len.
  replace (Z.to_nat (0 + Z.of_nat (List.length pre) + 1))
    with (List.length pre + 1)%nat by lia.
  change (pre ++ x :: post)%list with (pre ++ [x] ++ post)%list.
  rewrite app_assoc.
  rewrite skipn_app. rewrite length_app. simpl.
  rewrite Nat.sub_diag. rewrite skipn_all2 by (rewrite length_app; simpl; lia).
  reflexivity.
Qed.

(** [qagg] on a list whose first number is an int: the joiner sees the ints
    after it, one by one. *)
Lemma qagg_int_first {S} (joiner : joiner_t S) pre i post s :
  no_number pre ->
  qagg (pre ++ VInt i :: post) joiner s
  = bind (qagg_int joiner post i s)
      (fun '(current, s') => Ok (current, 0%float, isint, s')).
Proof.
  intros H. unfold qagg, firstNum. rewrite firstNum_from_int by exact H.
  rewrite slice_from_after. reflexivity.
Qed.

Lemma qagg_none {S} (joiner : joiner_t S) l s :
  no_number l -> qagg l joiner s = Ok (0, 0%float, isnone, s).
Proof.
  intros H. unfold qagg, firstNum. rewrite firstNum_from_none by exact H.
  reflexivity.
Qed.

(** X5. On a list that holds no number, the empty list included, [q::sum],
    [q::max], [q::min] and [q::avg] are null and [q::count] is 0. *)
Theorem aggregates_without_numbers :
  forall l : list Val,
    no_number l ->
    qSum l = Ok VNull /\ qMax l = Ok VNull /\ qMin l = Ok VNull /\
    qAvg l = Ok VNull /\ qCount l = Ok (VInt 0).
Proof.
  intros l H. unfold qSum, qMax, qMin, qAvg, qCount.
  repeat rewrite (qagg_none _ l _ H). repeat split; reflexivity.
Qed.

Lemma aggregates_without_numbers_witness :
  qSum [VStr "a"; VNull] = Ok VNull /\ qMax [VStr "a"; VNull] = Ok VNull /\
  qMin [VStr "a"; VNull] = Ok VNull /\ qAvg [VStr "a"; VNull] = Ok VNull /\
  qCount [VStr "a"; VNull] = Ok (VInt 0).
Proof.
  apply aggregates_without_numbers.
  intros v [<-|[<-|[]]]; reflexivity.
Defined.

Definition sum_joiner : joiner_t unit :=
  fun iprev icur rprev rcur t s =>
    match t with
    | isint => ((wrap64 (iprev + icur), 0%float, isint), s)
    | _ => ((0, PrimFloat.add rprev rcur, isreal), s)
    end.

Lemma qagg_int_sum data : forall cur,
  in_range cur ->
  qagg_int sum_joiner data cur tt = Ok (wrap64 (cur + sumZ (ints_of data)), tt).
Proof.
  induction data as [|v data IH]; intros cur Hc.
  - simpl. rewrite Z.add_0_r. rewrite wrap64_id by exact Hc. reflexivity.
  - destruct v; try (simpl; apply IH; exact Hc).
    cbn [qagg_int sum_joiner ints_of sumZ fold_right].
    rewrite IH by apply wrap64_range.
    rewrite wrap64_add_l. do 3 f_equal. unfold sumZ. ring.
Qed.

(** X6. [q::sum] on a list whose first number is an int is the sum of the
    ints of the list, wrapped to 64 bits; the reals and the other values
    among them do not count. *)
Theorem qSum_adds_the_ints :
  forall (pre : list Val) (i : Z) (post : list Val),
    no_number pre -> in_range i ->
    qSum (pre ++ VInt i :: post)
    = Ok (VInt (wrap64 (i + sumZ (ints_of post)))).
Proof.
  intros pre i post Hpre Hi. unfold qSum.
  change (fun (iprev icur : Z) (rprev rcur : float) (t : aggkind) (s : unit) =>
            match t with
            | isint => (wrap64 (iprev + icur), 0%float, isint, s)
            | _ => (0, PrimFloat.add rprev rcur, isreal, s)
            end) with sum_joiner.
  rewrite qagg_int_first by exact Hpre.
  rewrite qagg_int_sum by exact Hi. reflexivity.
Qed.

Lemma qSum_adds_the_ints_witness :
  qSum ([VStr "n"] ++ VInt 1 :: [VReal 2.5%float; VInt 3])
  = Ok (VInt (wrap64 (1 + sumZ (ints_of [VReal 2.5%float; VInt 3])))).
Proof.
  apply qSum_adds_the_ints.
  - intros v [<-|[]]. reflexivity.
  - unfold in_range, min_int, max_int. lia.
Defined.

Definition max_joiner : joiner_t unit :=
  fun iprev icur rprev rcur t s =>
    match t with
    | isint => if iprev <? icur then ((icur, 0%float, isint), s)
               else ((iprev, 0%float, isint), s)
    | _ => if PrimFloat.ltb rprev rcur then ((0, rcur, isreal), s)
           else ((0, rprev, isreal), s)
    end.

Definition min_joiner : joiner_t unit :=
  fun iprev icur rprev rcur t s =>
    match t with
    | isint => if icur <? iprev then ((icur, 0%float, isint), s)
               else ((iprev, 0%float, isint), s)
    | _ => if PrimFloat.ltb rcur rprev then ((0, rcur, isreal), s)
           else ((0, rprev, isreal), s)
    end.

Lemma qagg_int_max data : forall cur,
  exists m, qagg_int max_joiner data cur tt = Ok (m, tt) /\
            In m (cur :: ints_of data) /\
            forall j, In j (cur :: ints_of data) -> j <= m.
Proof.
  induction data as [|v data IH]; intros cur.
  - exists cur. simpl. repeat split; [left; reflexivity|].
    intros j [<-|[]]. lia.
  - destruct v; try (simpl; apply IH).
    cbn [qagg_int max_joiner ints_of].
    destruct (cur <? i) eqn:E.
    + apply Z.ltb_lt in E. destruct (IH i) as (m & Hm & Hin & Hle).
      exists m. split; [exact Hm|]. split.
      * right. exact Hin.
      * intros j [<-|Hj]; [|apply Hle; exact Hj].
        specialize (Hle i (or_introl eq_refl)). lia.
    + apply Z.ltb_ge in E. destruct (IH cur) as (m & Hm & Hin & Hle).
      exists m. split; [exact Hm|]. split.
      * destruct Hin as [<-|Hin]; [left; reflexivity | right; right; exact Hin].
      * intros j [<-|[<-|Hj]].
        -- apply Hle. left. reflexivity.
        -- specialize (Hle cur (or_introl eq_refl)). lia.
        -- apply Hle. right. exact Hj.
Qed.

Lemma qagg_int_min data : forall cur,
  exists m, qagg_int min_joiner data cur tt = Ok (m, tt) /\
            In m (cur :: ints_of data) /\
            forall j, In j (cur :: ints_of data) -> m <= j.
Proof.
  induction data as [|v data IH]; intros cur.
  - exists cur. simpl. repeat split; [left; reflexivity|].
    intros j [<-|[]]. lia.
  - destruct v; try (simpl; apply IH).
    cbn [qagg_int min_joiner ints_of].
    destruct (i <? cur) eqn:E.
    + apply Z.ltb_lt in E. destruct (IH i) as (m & Hm & Hin & Hle).
      exists m. split; [exact Hm|]. split.
      * right. exact Hin.
      * intros j [<-|Hj]; [|apply Hle; exact Hj].
        specialize (Hle i (or_introl eq_refl)). lia.
    + apply Z.ltb_ge in E. destruct (IH cur) as (m & Hm & Hin & Hle).
      exists m. split; [exact Hm|]. split.
      * destruct Hin as [<-|Hin]; [left; reflexivity | right; right; exact Hin].
      * intros j [<-|[<-|Hj]].
        -- apply Hle. left. reflexivity.
        -- specialize (Hle cur (or_introl eq_refl)). lia.
        -- apply Hle. right. exact Hj.
Qed.

(** X7. [q::max] and [q::min] on a list whose first number is an int return
    an int of the list that no int of the list exceeds, respectively falls
    below; the reals among them do not count. *)
Theorem qMax_qMin_are_extrema :
  forall (pre : list Val) (i : Z) (post : list Val),
    no_number pre ->
    (exists m, qMax (pre ++ VInt i :: post) = Ok (VInt m) /\
               In m (i :: ints_of post) /\
               forall j, In j (i :: ints_of post) -> j <= m) /\
    (exists m, qMin (pre ++ VInt i :: post) = Ok (VInt m) /\
               In m (i :: ints_of post) /\
               forall j, In j (i :: ints_of post) -> m <= j).
Proof.
  intros pre i post Hpre. split.
  - destruct (qagg_int_max post i) as (m & Hm & Hin & Hle).
    exists m. split; [|split; assumption].
    unfold qMax. fold max_joiner.
    rewrite qagg_int_first by exact Hpre. rewrite Hm. reflexivity.
  - destruct (qagg_int_min post i) as (m & Hm & Hin & Hle).
    exists m. split; [|split; assumption].
    unfold qMin. fold min_joiner.
    rewrite qagg_int_first by exact Hpre. rewrite Hm. reflexivity.
Qed.

Lemma qMax_qMin_are_extrema_witness :
  (exists m, qMax ([VNull] ++ VInt 2 :: [VInt 7; VReal 9%float; VInt 1]) = Ok (VInt m) /\
             In m (2 :: ints_of [VInt 7; VReal 9%float; VInt 1]) /\
             forall j, In j (2 :: ints_of [VInt 7; VReal 9%float; VInt 1]) -> j <= m) /\
  (exists m, qMin ([VNull] ++ VInt 2 :: [VInt 7; VReal 9%float; VInt 1]) = Ok (VInt m) /\
             In m (2 :: ints_of [VInt 7; VReal 9%float; VInt 1]) /\
             forall j, In j (2 :: ints_of [VInt 7; VReal 9%float; VInt 1]) -> m <= j).
Proof.
  apply qMax_qMin_are_extrema. intros v [<-|[]]. reflexivity.
Defined.

Definition count_joiner : joiner_t Z :=
  fun _ _ _ _ t count => ((0, 0%float, t), wrap64 (count + 1)).

Lemma qagg_int_count data : forall cur c,
  0 <= c -> c + len data <= max_int ->
  exists cur', qagg_int count_joiner data cur c
               = Ok (cur', c + len (ints_of data)).
Proof.
  induction data as [|v data IH]; intros cur c Hc Hb.
  - exists cur. simpl. unfold len. simpl. rewrite Z.add_0_r. reflexivity.
  - rewrite len_cons in Hb. pose proof (len_nonneg data) as Hd.
    destruct v; try (simpl; apply IH; lia).
    cbn [qagg_int count_joiner ints_of]. rewrite len_cons.
    rewrite wrap64_id by (unfold in_range, min_int, max_int in *; lia).
    destruct (IH 0 (c + 1)) as (cur' & H); try lia.
    exists cur'. rewrite H. do 2 f_equal. lia.
Qed.

(** X8. [q::count] on a list whose first number is an int is the number of
    ints of the list: the first one, which the counter starts from, and the
    ints after it. *)
Theorem qCount_counts_the_ints :
  forall (pre : list Val) (i : Z) (post : list Val),
    no_number pre -> len post < max_int ->
    qCount (pre ++ VInt i :: post) = Ok (VInt (1 + len (ints_of post))).
Proof.
  intros pre i post Hpre Hb. unfold qCount. fold count_joiner.
  rewrite qagg_int_first by exact Hpre.
  destruct (qagg_int_count post i 1) as (cur' & H); try lia.
  rewrite H. reflexivity.
Qed.

Lemma qCount_counts_the_ints_witness :
  qCount ([] ++ VInt 4 :: [VStr "x"; VInt 5; VReal 1%float])
  = Ok (VInt (1 + len (ints_of [VStr "x"; VInt 5; VReal 1%float]))).
Proof.
  apply qCount_counts_the_ints.
  - intros v [].
  - unfold len, max_int. simpl. lia.
Defined.

Definition avg_joiner : joiner_t qavginfo :=
  fun _ icur _ rcur t avg =>
    let n := wrap64 (count avg + 1) in
    match t with
    | isint =>
        ((0, 0%float, isint),
         {| count := n; rtt := rtt avg; itt := wrap64 (itt avg + icur) |})
    | _ =>
        ((0, 0%float, isreal),
         {| count := n; rtt := PrimFloat.add (rtt avg) rcur; itt := itt avg |})
    end.

Lemma qagg_int_avg data : forall cur c r t,
  0 <= c -> c + len data <= max_int -> in_range t ->
  exists cur', qagg_int avg_joiner data cur {| count := c; rtt := r; itt := t |}
               = Ok (cur', {| count := c + len (ints_of data); rtt := r;
                              itt := wrap64 (t + sumZ (ints_of data)) |}).
Proof.
  induction data as [|v data IH]; intros cur c r t Hc Hb Ht.
  - exists cur. simpl. unfold len. simpl. rewrite !Z.add_0_r.
    rewrite wrap64_id by exact Ht. reflexivity.
  - rewrite len_cons in Hb. pose proof (len_nonneg data) as Hd.
    destruct v; try (simpl; apply IH; try assumption; lia).
    cbn [qagg_int avg_joiner ints_of count itt rtt]. rewrite len_cons.
    rewrite (wrap64_id (c + 1)) by (unfold in_range, min_int, max_int in *; lia).
    destruct (IH 0 (c + 1) r (wrap64 (t + i))) as (cur' & H);
      try lia; [apply wrap64_range|].
    exists cur'. rewrite H. rewrite wrap64_add_l.
    do 3 f_equal; [lia | unfold sumZ; simpl; f_equal; ring].
Qed.

(** X9. [q::avg] on a list whose first number is an int divides the sum of
    the ints after that first one by their number: the first number is in
    neither. (With a single int the result is 0/0, a NaN.) *)
Theorem qAvg_leaves_the_first_number_out :
  forall (pre : list Val) (i : Z) (post : list Val),
    no_number pre -> len post < max_int ->
    qAvg (pre ++ VInt i :: post)
    = Ok (VReal (PrimFloat.div
                   (to_float (wrap64 (sumZ (ints_of post))))
                   (to_float (len (ints_of post))))).
Proof.
  intros pre i post Hpre Hb. unfold qAvg. fold avg_joiner.
  rewrite qagg_int_first by exact Hpre.
  destruct (qagg_int_avg post i 0 0%float 0) as (cur' & H); try lia.
  { unfold in_range, min_int, max_int. lia. }
  rewrite H. reflexivity.
Qed.

Lemma qAvg_leaves_the_first_number_out_witness :
  qAvg ([] ++ VInt 100 :: [VInt 2; VInt 4])
  = Ok (VReal (PrimFloat.div
                 (to_float (wrap64 (sumZ (ints_of [VInt 2; VInt 4]))))
                 (to_float (len (ints_of [VInt 2; VInt 4]))))).
Proof.
  apply qAvg_leaves_the_first_number_out.
  - intros v [].
  - unfold len, max_int. simpl. lia.
Defined.

(* ------------------------------------------------------------------------- *)
(** ** Slices *)

Lemma at_cons_pos {A} (x : A) (l : list A) (k : Z) :
  0 < k -> at_ (x :: l) k = at_ l (k - 1).
Proof.
  intros H. unfold at_.
  replace (k <? 0) with false by (symmetry; apply Z.ltb_ge; lia).
  replace (k - 1 <? 0) with false by (symmetry; apply Z.ltb_ge; lia).
  replace (Z.to_nat k) with (S (Z.to_nat (k - 1))) by lia. reflexivity.
Qed.

Lemma stride_count_step s e step :
  1 <= step -> s < e ->
  stride_count s e step = 1 + stride_count (s + step) e step.
Proof.
  intros Hst Hlt. unfold stride_count.
  replace (s <? e) with true by (symmetry; apply Z.ltb_lt; lia).
  destruct (s + step <? e) eqn:E.
  - replace (e - s + step - 1) with ((e - (s + step) + step - 1) + 1 * step) by ring.
    rewrite Z.div_add by lia. lia.
  - apply Z.ltb_ge in E. symmetry.
    apply (Z.div_unique (e - s + step - 1) step 1 (e - s - 1)); [left; lia | ring].
Qed.

Lemma qSlice_loop_strides l e step :
  1 <= step -> e <= len l -> step <= max_int - len l ->
  forall fuel s o,
    (s < e -> 0 <= s) -> Z.max 0 (e - s) < Z.of_nat fuel ->
    exists r, qSlice_loop fuel l s e step o = Ok (o ++ r)%list /\
              len r = stride_count s e step /\
              forall k, 0 <= k < len r -> at_ r k = at_ l (s + k * step).
Proof.
  intros Hst He Hmax. induction fuel as [|fuel IH]; intros s o Hs Hf; [lia|].
  cbn [qSlice_loop]. destruct (s <? e) eqn:E.
  - apply Z.ltb_lt in E. specialize (Hs E).
    destruct (proj2 (at_some_iff l s) ltac:(lia)) as [x Hx]. rewrite Hx.
    assert (Hw : wrap64 (s + step) = s + step).
    { apply wrap64_id. pose proof (len_nonneg l).
      unfold in_range, min_int, max_int in *. lia. }
    rewrite Hw.
    destruct (IH (s + step) (o ++ [x])%list) as (r & Hr & Hlen & Hat); try lia.
    exists (x :: r). split; [|split].
    + rewrite Hr. rewrite <- app_assoc. reflexivity.
    + rewrite len_cons. rewrite Hlen.
      rewrite (stride_count_step s e step Hst E). lia.
    + intros k Hk. rewrite len_cons in Hk.
      destruct (Z.eq_dec k 0) as [->|Hk0].
      * rewrite at_0_cons. rewrite <- Hx. f_equal. ring.
      * rewrite at_cons_pos by lia. rewrite Hat by lia. f_equal. ring.
  - exists []. rewrite app_nil_r. split; [reflexivity|]. split.
    + unfold stride_count. rewrite E. reflexivity.
    + intros k Hk. unfold len in Hk. simpl in Hk. lia.
Qed.

(** X10. [q::slice(l, start, end, step)] with a start that is not negative
    and a step of at least one and at most [MaxInt64 - len(l)], so that
    [start += step] does not wrap, returns, without a fault, the elements of
    [l] at [s, s+step, s+2*step, ...] below [e], where [e] is [end] clamped
    to the length of the list and [s] is [start] clamped to [e]; [q::slice(l,
    start)] and [q::slice(l, start, end)] are the cases [end = len(l)] and
    [step = 1]. *)
Theorem qSlice_strides :
  forall (fuel : nat) (l : list Val) (start end_ step : Z),
    0 <= start -> 1 <= step <= max_int - len l -> len l < Z.of_nat fuel ->
    let e := Z.min end_ (len l) in
    let s := Z.min start e in
    (exists r, qSlice fuel l [start; end_; step] = Ok (VList r) /\
               len r = stride_count s e step /\
               forall k, 0 <= k < len r -> at_ r k = at_ l (s + k * step)) /\
    qSlice fuel l [start; end_] = qSlice fuel l [start; end_; 1] /\
    qSlice fuel l [start] = qSlice fuel l [start; len l; 1].
Proof.
  intros fuel l start end_ step Hs Hst Hf e s.
  split; [|split; reflexivity].
  cbn [qSlice]. unfold qSlice_from.
  pose proof (len_nonneg l) as Hl.
  assert (He : (if len l <=? end_ then len l else end_) = e).
  { unfold e. destruct (len l <=? end_) eqn:E;
      [apply Z.leb_le in E | apply Z.leb_gt in E]; lia. }
  rewrite He.
  assert (Hs' : (if e <? start then e else start) = s).
  { unfold s. destruct (e <? start) eqn:E;
      [apply Z.ltb_lt in E | apply Z.ltb_ge in E]; lia. }
  rewrite Hs'.
  assert (H1 : e <= len l) by (unfold e; lia).
  assert (H2 : s < e -> 0 <= s) by (unfold s, e; lia).
  assert (H3 : Z.max 0 (e - s) < Z.of_nat fuel) by (unfold s, e; lia).
  destruct (qSlice_loop_strides l e step (proj1 Hst) H1 (proj2 Hst) fuel s [] H2 H3)
    as (r & Hr & Hlen & Hat).
  exists r. rewrite Hr. repeat split; assumption.
Qed.

Lemma qSlice_strides_witness :
  (exists r, qSlice 4 [VInt 1; VInt 2; VInt 3] [0; 100; 2] = Ok (VList r) /\
             len r = stride_count (Z.min 0 (Z.min 100 (len [VInt 1; VInt 2; VInt 3])))
                       (Z.min 100 (len [VInt 1; VInt 2; VInt 3])) 2 /\
             forall k, 0 <= k < len r ->
               at_ r k = at_ [VInt 1; VInt 2; VInt 3]
                           (Z.min 0 (Z.min 100 (len [VInt 1; VInt 2; VInt 3])) + k * 2)) /\
  qSlice 4 [VInt 1; VInt 2; VInt 3] [0; 100]
  = qSlice 4 [VInt 1; VInt 2; VInt 3] [0; 100; 1] /\
  qSlice 4 [VInt 1; VInt 2; VInt 3] [0]
  = qSlice 4 [VInt 1; VInt 2; VInt 3] [0; len [VInt 1; VInt 2; VInt 3]; 1].
Proof.
  apply (qSlice_strides 4 [VInt 1; VInt 2; VInt 3] 0 100 2);
    unfold len, max_int; simpl; lia.
Defined.

Lemma qSlice_loop_still l e : forall fuel s o,
  0 <= s < e -> e <= len l -> s <= max_int ->
  qSlice_loop fuel l s e 0 o = OutOfFuel.
Proof.
  induction fuel as [|fuel IH]; intros s o Hs He Hm; [reflexivity|].
  cbn [qSlice_loop].
  replace (s <? e) with true by (symmetry; apply Z.ltb_lt; lia).
  destruct (proj2 (at_some_iff l s) ltac:(lia)) as [x Hx]. rewrite Hx.
  rewrite Z.add_0_r.
  rewrite wrap64_id by (unfold in_range, min_int, max_int in *; lia).
  apply IH; assumption.
Qed.

(** X11. Two inputs [q::slice] does not survive: with step 0 and a
    non-empty range the loop never advances and the call does not return;
    with a negative start that is below the clamped end, the first access
    [list.At(start)] faults. *)
Theorem qSlice_hangs_or_faults :
  forall (fuel : nat) (l : list Val) (start end_ step : Z),
    start < Z.min end_ (len l) ->
    (0 <= start <= max_int ->
     qSlice fuel l [start; end_; 0] = OutOfFuel) /\
    (start < 0 ->
     qSlice (S fuel) l [start; end_; step] = Fault "index out of range").
Proof.
  intros fuel l start end_ step Hlt.
  assert (He : (if len l <=? end_ then len l else end_) = Z.min end_ (len l)).
  { destruct (len l <=? end_) eqn:E;
      [apply Z.leb_le in E | apply Z.leb_gt in E]; lia. }
  assert (Hs : (if Z.min end_ (len l) <? start then Z.min end_ (len l) else start)
               = start).
  { replace (Z.min end_ (len l) <? start) with false
      by (symmetry; apply Z.ltb_ge; lia). reflexivity. }
  split; intros H0; cbn [qSlice]; unfold qSlice_from; rewrite He, Hs.
  - rewrite qSlice_loop_still; [reflexivity | lia | lia | lia].
  - cbn [qSlice_loop].
    replace (start <? Z.min end_ (len l)) with true by (symmetry; apply Z.ltb_lt; lia).
    unfold at_. replace (start <? 0) with true by (symmetry; apply Z.ltb_lt; lia).
    reflexivity.
Qed.

Lemma qSlice_hangs_or_faults_witness :
  qSlice 50 [VInt 1; VInt 2] [0; 2; 0] = OutOfFuel /\
  qSlice 1 [VInt 1; VInt 2] [-1; 2; 1] = Fault "index out of range".
Proof.
  split.
  - apply (proj1 (qSlice_hangs_or_faults 50 [VInt 1; VInt 2] 0 2 0
                    ltac:(unfold len; simpl; lia)));
      unfold max_int; lia.
  - apply (proj2 (qSlice_hangs_or_faults 0 [VInt 1; VInt 2] (-1) 2 1
                    ltac:(unfold len; simpl; lia))); lia.
Defined.

(* ------------------------------------------------------------------------- *)
(** ** Filters *)

Lemma subseq_refl {A} (l : list A) : subseq l l.
Proof. induction l; constructor; assumption. Qed.

Lemma subseq_nil_l {A} (l : list A) : subseq [] l.
Proof. induction l; constructor; assumption. Qed.

Lemma at_app_mid {A} (s : list A) (v : A) (t : list A) :
  at_ (s ++ v :: t) (len s) = Some v.
Proof.
  unfold at_, len. replace (Z.of_nat (List.length s) <? 0) with false
    by (symmetry; apply Z.ltb_ge; lia).
  rewrite Nat2Z.id. rewrite nth_error_app2 by lia.
  rewrite Nat.sub_diag. reflexivity.
Qed.

Lemma app_mid {A} (s : list A) (v : A) (t : list A) :
  (s ++ v :: t = (s ++ [v]) ++ t)%list /\ len (s ++ [v]) = len s + 1.
Proof. split; [rewrite <- app_assoc; reflexivity | apply len_app]. Qed.






Lemma filter_loop_keep name fn f should :
  (forall k v c e, exists e', fn [VInt k; v] c e = Ok (VBool (f k v), [], e')) ->
  forall rest done o eval,
    exists eval',
      filter_loop name fn should (List.length rest) (len done) (done ++ rest) o eval
      = Ok ((o ++ keep (fun k v => should (f k v)) rest (len done))%list,
            (done ++ rest)%list, eval').
Proof.
  intros Hfn. induction rest as [|v rest IH]; intros done o eval.
  - exists eval. cbn. rewrite !app_nil_r. reflexivity.
  - cbn [List.length filter_loop keep]. rewrite at_app_mid.
    destruct (Hfn (len done) v (done ++ v :: rest)%list eval) as [e1 He1].
    rewrite He1. cbn [bind assign_all fold_left].
    destruct (app_mid done v rest) as [E1 E2].
    destruct (should (f (len done) v)).
    + destruct (IH (done ++ [v])%list (o ++ [v])%list e1) as [e' He']. exists e'.
      rewrite E2, <- E1 in He'. rewrite He'. rewrite <- app_assoc. reflexivity.
    + destruct (IH (done ++ [v])%list o e1) as [e' He']. exists e'.
      rewrite E2, <- E1 in He'. exact He'.
Qed.

Lemma keep_partition f : forall l k,
  len (keep f l k) + len (keep (fun k v => negb (f k v)) l k) = len l.
Proof.
  induction l as [|v l IH]; intros k; [reflexivity|].
  cbn [keep]. specialize (IH (k + 1)).
  destruct (f k v); cbn [negb]; rewrite !len_cons; lia.
Qed.

(** X13. With a callback that answers every (index, value) with the bool
    [f index value] and does not assign into the list, [q::filter] returns
    the elements for which [f] holds and [q::filter_not] those for which it
    does not, both in list order, and both leave the list as it was:
    together they split the list. *)
Theorem filter_and_filter_not_split_the_list :
  forall (l : list Val) (fn : callback) (f : Z -> Val -> bool) (eval : Evaluator),
    (forall k v c e, exists e', fn [VInt k; v] c e = Ok (VBool (f k v), [], e')) ->
    (exists e1, qFilter l fn eval = Ok (VList (keep f l 0), l, e1)) /\
    (exists e2, qFilterNot l fn eval
                = Ok (VList (keep (fun k v => negb (f k v)) l 0), l, e2)) /\
    len (keep f l 0) + len (keep (fun k v => negb (f k v)) l 0) = len l.
Proof.
  intros l fn f eval Hfn. split; [|split].
  - destruct (filter_loop_keep "q::filter" fn f (fun p => p) Hfn l [] [] eval)
      as [e1 H1].
    exists e1. unfold qFilter, filterImpl. cbn [app len List.length] in H1.
    change (len (@nil Val)) with 0 in H1. rewrite H1. reflexivity.
  - destruct (filter_loop_keep "q::filter_not" fn f (fun p => negb p) Hfn l [] [] eval)
      as [e2 H2].
    exists e2. unfold qFilterNot, filterImpl.
    change (len (@nil Val)) with 0 in H2. cbn [app] in H2. rewrite H2. reflexivity.
  - apply keep_partition.
Qed.

Lemma filter_and_filter_not_split_the_list_witness :
  (exists e1, qFilter [VInt 1; VInt 2; VInt 3; VInt 4] even_callback freshEvaluator
              = Ok (VList (keep is_even [VInt 1; VInt 2; VInt 3; VInt 4] 0),
                    [VInt 1; VInt 2; VInt 3; VInt 4], e1)) /\
  (exists e2, qFilterNot [VInt 1; VInt 2; VInt 3; VInt 4] even_callback freshEvaluator
              = Ok (VList (keep (fun k v => negb (is_even k v))
                             [VInt 1; VInt 2; VInt 3; VInt 4] 0),
                    [VInt 1; VInt 2; VInt 3; VInt 4], e2)) /\
  len (keep is_even [VInt 1; VInt 2; VInt 3; VInt 4] 0)
  + len (keep (fun k v => negb (is_even k v)) [VInt 1; VInt 2; VInt 3; VInt 4] 0)
  = len [VInt 1; VInt 2; VInt 3; VInt 4].
Proof.
  apply filter_and_filter_not_split_the_list.
  intros k v c e. exists e. reflexivity.
Defined.

(* ========================================================================= *)
(** * Further properties of the evaluator *)

(* ------------------------------------------------------------------------- *)
(** ** Calls and returns *)

Lemma at_app_l {A} (s t : list A) (i : Z) :
  i < len s -> at_ (s ++ t) i = at_ s i.
Proof.
  intros H. unfold at_. destruct (i <? 0) eqn:E; [reflexivity|].
  apply Z.ltb_ge in E. apply nth_error_app1. unfold len in H. lia.
Qed.

Lemma at_app_r {A} (s t : list A) (i : Z) :
  len s <= i -> at_ (s ++ t) i = at_ t (i - len s).
Proof.
  intros H. pose proof (len_nonneg s) as Hs. unfold at_.
  replace (i <? 0) with false by (symmetry; apply Z.ltb_ge; lia).
  replace (i - len s <? 0) with false by (symmetry; apply Z.ltb_ge; lia).
  rewrite nth_error_app2 by (unfold len in H; lia).
  f_equal. unfold len. lia.
Qed.

Lemma take_app_le {A} (s t : list A) (n : Z) :
  n <= len s -> take n (s ++ t) = take n s.
Proof.
  intros H. unfold take. rewrite firstn_app.
  replace (Z.to_nat n - List.length s)%nat with 0%nat by (unfold len in H; lia).
  simpl. apply app_nil_r.
Qed.

Lemma stackSize_push v e : stackSize (push v e) = stackSize e + 1.
Proof. unfold stackSize, push. cbn. rewrite len_app. reflexivity. Qed.

(** X14. A return undoes the call: whatever the callee left on the stack
    above its frame, [epilogue] finds the frame [prologue] saved, removes the
    callee's slot, its arguments and everything above them, puts the result
    in their place, and resumes the caller's own frame (its handlers
    included) at the pc of the call, which the loop then steps past. The
    stack ends [alen] values shorter than before the call. *)
Theorem return_undoes_call :
  forall (e callee : Evaluator) (ft : ftype_t) (alen : Z)
         (prog : option program) (cl : option nat) (v : Val) (extra : list Val),
    0 <= alen -> alen + 1 <= stackSize e ->
    Stack callee = (Stack (prologue ft alen prog cl e) ++ extra)%list ->
    framep (curframe callee) = framep (curframe (prologue ft alen prog cl e)) ->
    farg (curframe callee) = alen ->
    exists e',
      epilogue v callee = Ok (pc_of (curframe e), prog_of (curframe e), e') /\
      Stack e' = (take (stackSize e - alen - 1) (Stack e) ++ [v])%list /\
      stackSize e' = stackSize e - alen /\
      curframe e' = with_pc (curframe e) (pc_of (curframe e) + 1) /\
      Session e' = Session callee /\ eventQ e' = eventQ callee /\
      curexcep e' = curexcep callee.
Proof.
  intros e callee ft alen prog cl v extra Ha Hsz Hst Hfp Hfa.
  pose proof (len_nonneg (Stack e)) as Hn.
  set (saved := with_pc (curframe e) (pc_of (curframe e) + 1)).
  assert (Hp : Stack (prologue ft alen prog cl e) = (Stack e ++ [VFrame saved])%list)
    by reflexivity.
  assert (Hfp0 : framep (curframe (prologue ft alen prog cl e))
                 = stackSize e - 1 - alen).
  { unfold prologue. cbn [curframe with_curframe framep].
    rewrite stackSize_push. lia. }
  rewrite Hfp0 in Hfp. rewrite Hp in Hst.
  assert (Hprev : prevfuncframe callee = Ok saved).
  { unfold prevfuncframe, prevframepos. rewrite Hfp, Hfa, Hst.
    replace (stackSize e - 1 - alen + alen + 1) with (len (Stack e))
      by (unfold stackSize; lia).
    rewrite <- app_assoc. rewrite at_app_r by lia.
    rewrite Z.sub_diag. reflexivity. }
  assert (Hpop : popTo (stackSize e - 1 - alen) callee
                 = Ok (with_Stack callee (take (stackSize e - 1 - alen) (Stack e)))).
  { apply popTo_Ok. unfold stackSize in *. rewrite Hst. rewrite !len_app.
    split.
    - pose proof (len_nonneg extra). change (len [VFrame saved]) with 1. lia.
    - f_equal. rewrite <- app_assoc. symmetry. apply take_app_le. lia. }
  exists (push v (with_curframe
                    (with_Stack callee (take (stackSize e - 1 - alen) (Stack e)))
                    saved)).
  unfold epilogue. rewrite Hprev. cbn [bind].
  unfold popfuncframe. rewrite Hfp, Hpop. cbn [bind].
  split; [|split; [|split; [|repeat split]]].
  - replace (pc_of saved - 1) with (pc_of (curframe e)) by (cbn; lia).
    reflexivity.
  - cbn. replace (stackSize e - alen - 1) with (stackSize e - 1 - alen) by lia.
    reflexivity.
  - rewrite stackSize_push. unfold stackSize at 1. cbn.
    rewrite len_take by (unfold stackSize in *; lia). lia.
Qed.

Lemma return_undoes_call_witness :
  exists e',
    epilogue (VInt 42) in_callee
    = Ok (pc_of (curframe at_call), prog_of (curframe at_call), e') /\
    Stack e' = (take (stackSize at_call - 2 - 1) (Stack at_call) ++ [VInt 42])%list.
Proof.
  destruct (return_undoes_call at_call in_callee
              ftypeScript 2 (Some ruleB) None (VInt 42) [VStr "local"]
              ltac:(lia) ltac:(vm_compute; discriminate)
              ltac:(vm_compute; reflexivity) ltac:(vm_compute; reflexivity)
              ltac:(vm_compute; reflexivity))
    as (e' & H1 & H2 & _).
  exists e'. split; assumption.
Defined.

(* ------------------------------------------------------------------------- *)
(** ** Session variables and locals *)

Lemma set_nth_spec {A} (l : list A) : forall (i : nat) (v : A),
  (i < List.length l)%nat ->
  exists l', set_nth l i v = Some l' /\
             List.length l' = List.length l /\
             nth_error l' i = Some v /\
             forall j, j <> i -> nth_error l' j = nth_error l j.
Proof.
  induction l as [|x l IH]; intros i v H; [simpl in H; lia|].
  destruct i as [|i].
  - exists (v :: l). repeat split. intros [|j] Hj; [contradiction | reflexivity].
  - simpl in H. destruct (IH i v ltac:(lia)) as (l' & Hs & Hl & Hn & Ho).
    exists (x :: l'). cbn [set_nth]. rewrite Hs. repeat split.
    + simpl. lia.
    + exact Hn.
    + intros [|j] Hj; [reflexivity|]. simpl. apply Ho. lia.
Qed.

Lemma set_at_spec {A} (l : list A) (i : Z) (v : A) :
  0 <= i < len l ->
  exists l', set_at l i v = Some l' /\ len l' = len l /\
             at_ l' i = Some v /\
             forall j, j <> i -> at_ l' j = at_ l j.
Proof.
  intros H. unfold set_at, len in *.
  replace (i <? 0) with false by (symmetry; apply Z.ltb_ge; lia).
  destruct (set_nth_spec l (Z.to_nat i) v ltac:(lia)) as (l' & Hs & Hl & Hn & Ho).
  exists l'. split; [exact Hs|]. split; [lia|]. split.
  - unfold at_. replace (i <? 0) with false by (symmetry; apply Z.ltb_ge; lia).
    exact Hn.
  - intros j Hj. unfold at_. destruct (j <? 0) eqn:E; [reflexivity|].
    apply Z.ltb_ge in E. apply Ho. lia.
Qed.

Lemma set_at_app_l {A} (s t : list A) (i : Z) (v : A) (s' : list A) :
  set_at s i v = Some s' -> set_at (s ++ t) i v = Some (s' ++ t)%list.
Proof.
  unfold set_at. destruct (i <? 0); [discriminate|].
  generalize (Z.to_nat i). clear i. revert s'.
  induction s as [|x s IH]; intros s' n H; [discriminate|].
  destruct n as [|n].
  - cbn in H. apply (f_equal (fun o => match o with Some z => z | None => s' end)) in H.
    subst s'. reflexivity.
  - cbn [set_nth] in H. destruct (set_nth s n v) as [s1|] eqn:E; [|discriminate].
    apply (f_equal (fun o => match o with Some z => z | None => s' end)) in H.
    subst s'. cbn [app set_nth]. rewrite (IH s1 n E). reflexivity.
Qed.

Section StateFacts.
Context {X : Extern}.

(** X15. Session variables: [setSession] appends the top of the stack to the
    session, and [loadSession] at the index it got reads that value back;
    [storeSession i] on an existing index replaces the value, and
    [loadSession i] reads it back, the other session variables staying as
    they were. *)
Theorem session_store_then_load :
  forall (fuel : nat) (m : Module_) (prog : program) (pc pc' a i : Z)
         (e : Evaluator) (s : list Val) (v : Val),
    Stack e = (s ++ [v])%list ->
    (instr_at prog pc bcSetSession a ->
     instr_at prog pc' bcLoadSession (len (Session e)) ->
     exists e1,
       step fuel m prog pc e = Ok (Break prog pc e1) /\
       Stack e1 = s /\ Session e1 = (Session e ++ [v])%list /\
       step fuel m prog pc' e1 = Ok (Break prog pc' (push v e1))) /\
    (instr_at prog pc bcStoreSession i ->
     instr_at prog pc' bcLoadSession i ->
     0 <= i < len (Session e) ->
     exists e1,
       step fuel m prog pc e = Ok (Break prog pc e1) /\
       Stack e1 = s /\ len (Session e1) = len (Session e) /\
       (forall j, j <> i -> at_ (Session e1) j = at_ (Session e) j) /\
       step fuel m prog pc' e1 = Ok (Break prog pc' (push v e1))).
Proof.
  intros fuel m prog pc pc' a i e s v Hs.
  pose proof (len_nonneg (Session e)) as Hn.
  split.
  - intros Hi Hl.
    exists (with_Session (with_Stack e s) (Session e ++ [v])%list).
    split; [|split; [reflexivity|split; [reflexivity|]]].
    + unfold step. rewrite Hi. cbn [opcode_of argument].
      rewrite (top0_app e s v Hs). cbn [bind]. rewrite (pop_app e s v Hs).
      reflexivity.
    + unfold step. rewrite Hl. cbn [opcode_of argument Session with_Session].
      rewrite len_app. change (len [v]) with 1.
      replace (len (Session e) + 1 <=? len (Session e)) with false
        by (symmetry; apply Z.leb_gt; lia).
      rewrite at_app_last. reflexivity.
  - intros Hi Hl Hb.
    destruct (set_at_spec (Session e) i v Hb) as (l' & Hset & Hlen & Hat & Hoth).
    exists (with_Stack (with_Session e l') s).
    split; [|split; [reflexivity|split; [exact Hlen|split; [exact Hoth|]]]].
    + unfold step. rewrite Hi. cbn [opcode_of argument].
      replace (len (Session e) <=? i) with false by (symmetry; apply Z.leb_gt; lia).
      rewrite (top0_app e s v Hs). cbn [bind]. rewrite Hset.
      rewrite (pop_app (with_Session e l') s v Hs). reflexivity.
    + unfold step. rewrite Hl. cbn [opcode_of argument Session with_Session with_Stack].
      rewrite Hlen.
      replace (len (Session e) <=? i) with false by (symmetry; apply Z.leb_gt; lia).
      rewrite Hat. reflexivity.
Qed.

(** X16. A session index at or past the number of session variables is a
    script error, "session variable is not existed", for [loadSession] and
    [storeSession] alike, and the evaluator is left as it was. A negative
    index passes the test and the instruction faults: [loadSession], and
    [storeSession] with a value to store on the stack, at the access
    [e.Session[i]]; [storeSession] on an empty stack already at [top0]. *)
Theorem session_index_out_of_range :
  forall (fuel : nat) (m : Module_) (prog : program) (pc i : Z) (e : Evaluator),
    (len (Session e) <= i ->
     (instr_at prog pc bcLoadSession i \/ instr_at prog pc bcStoreSession i) ->
     step fuel m prog pc e
     = Ok (Return (rrErr (Some prog) pc "session variable is not existed") e)) /\
    (i < 0 -> instr_at prog pc bcLoadSession i ->
     step fuel m prog pc e = Fault "index out of range") /\
    (i < 0 -> instr_at prog pc bcStoreSession i ->
     (forall s v, Stack e = (s ++ [v])%list ->
        step fuel m prog pc e = Fault "index out of range") /\
     (Stack e = [] -> step fuel m prog pc e = Fault "invalid topN index")).
Proof.
  intros fuel m prog pc i e. split; [|split].
  - intros Hb [Hi|Hi]; unfold step; rewrite Hi; cbn [opcode_of argument];
      replace (len (Session e) <=? i) with true by (symmetry; apply Z.leb_le; lia);
      reflexivity.
  - intros Hneg Hi. pose proof (len_nonneg (Session e)).
    unfold step. rewrite Hi. cbn [opcode_of argument].
    replace (len (Session e) <=? i) with false by (symmetry; apply Z.leb_gt; lia).
    unfold at_. replace (i <? 0) with true by (symmetry; apply Z.ltb_lt; lia).
    reflexivity.
  - intros Hneg Hi. pose proof (len_nonneg (Session e)).
    assert (Hstep : step fuel m prog pc e
                    = bind (top0 e) (fun v =>
                        match set_at (Session e) i v with
                        | Some s =>
                            bind (pop (with_Session e s))
                              (fun e1 => Ok (Break prog pc e1))
                        | None => Fault "index out of range"
                        end)).
    { unfold step. rewrite Hi. cbn [opcode_of argument].
      replace (len (Session e) <=? i) with false by (symmetry; apply Z.leb_gt; lia).
      reflexivity. }
    split.
    + intros s v Hs. rewrite Hstep, (top0_app e s v Hs). cbn [bind].
      unfold set_at. replace (i <? 0) with true by (symmetry; apply Z.ltb_lt; lia).
      reflexivity.
    + intros Hs. rewrite Hstep. unfold top0, topN, stackSize. rewrite Hs.
      reflexivity.
Qed.

(** X17. Locals: [storeLocal i] writes the top of the stack into slot
    [framep + 1 + i] of the stack and pops it; when that slot lies below the
    value stored, [loadLocal i] then pushes the value back, and no other
    slot has changed. *)
Theorem local_store_then_load :
  forall (fuel : nat) (m : Module_) (prog : program) (pc pc' i : Z)
         (e : Evaluator) (s : list Val) (v : Val),
    Stack e = (s ++ [v])%list ->
    instr_at prog pc bcStoreLocal i ->
    instr_at prog pc' bcLoadLocal i ->
    0 <= localslot i e < len s ->
    exists e1,
      step fuel m prog pc e = Ok (Break prog pc e1) /\
      len (Stack e1) = len s /\
      at_ (Stack e1) (localslot i e) = Some v /\
      (forall j, j <> localslot i e -> at_ (Stack e1) j = at_ s j) /\
      curframe e1 = curframe e /\
      step fuel m prog pc' e1 = Ok (Break prog pc' (push v e1)).
Proof.
  intros fuel m prog pc pc' i e s v Hs Hst Hld Hb.
  destruct (set_at_spec s (localslot i e) v Hb) as (s' & Hset & Hlen & Hat & Hoth).
  exists (with_Stack e s').
  assert (Hstep : step fuel m prog pc e = Ok (Break prog pc (with_Stack e s'))).
  { unfold step. rewrite Hst. cbn [opcode_of argument].
    rewrite (top0_app e s v Hs). cbn [bind]. rewrite Hs.
    rewrite (set_at_app_l s [v] _ v s' Hset).
    rewrite (pop_app (with_Stack e (s' ++ [v])%list) s' v eq_refl). reflexivity. }
  split; [exact Hstep|]. split; [exact Hlen|]. split; [exact Hat|].
  split; [exact Hoth|]. split; [reflexivity|].
  unfold step. rewrite Hld. cbn [opcode_of argument].
  change (localslot i (with_Stack e s')) with (localslot i e).
  cbn [Stack with_Stack]. rewrite Hat. reflexivity.
Qed.

End StateFacts.

Lemma session_store_then_load_witness :
  exists e1,
    step (X := specExtern) 0 emptyModule
      (mkprog "s" progSession 1 [BC bcSetSession 0; BC bcLoadSession 0] [] [])
      0 (with_top (VInt 5))
    = Ok (Break (mkprog "s" progSession 1 [BC bcSetSession 0; BC bcLoadSession 0] [] [])
            0 e1) /\
    Stack e1 = [] /\ Session e1 = ([] ++ [VInt 5])%list /\
    step (X := specExtern) 0 emptyModule
      (mkprog "s" progSession 1 [BC bcSetSession 0; BC bcLoadSession 0] [] [])
      1 e1
    = Ok (Break (mkprog "s" progSession 1 [BC bcSetSession 0; BC bcLoadSession 0] [] [])
            1 (push (VInt 5) e1)).
Proof.
  exact (proj1 (session_store_then_load (X := specExtern) 0 emptyModule
                  (mkprog "s" progSession 1 [BC bcSetSession 0; BC bcLoadSession 0] [] [])
                  0 1 0 0 (with_top (VInt 5)) [] (VInt 5) eq_refl)
           eq_refl eq_refl).
Defined.

Lemma session_index_out_of_range_witness :
  step (X := specExtern) 0 emptyModule (one_instr bcLoadSession 3) 0 freshEvaluator
  = Ok (Return (rrErr (Some (one_instr bcLoadSession 3)) 0
                  "session variable is not existed") freshEvaluator) /\
  step (X := specExtern) 0 emptyModule (one_instr bcLoadSession (-1)) 0 freshEvaluator
  = Fault "index out of range" /\
  step (X := specExtern) 0 emptyModule (one_instr bcStoreSession (-1)) 0
    (with_top (VInt 5))
  = Fault "index out of range".
Proof.
  split; [|split].
  - apply (proj1 (session_index_out_of_range (X := specExtern) 0 emptyModule
                    (one_instr bcLoadSession 3) 0 3 freshEvaluator)).
    + vm_compute. discriminate.
    + left. reflexivity.
  - apply (proj1 (proj2 (session_index_out_of_range (X := specExtern) 0 emptyModule
                           (one_instr bcLoadSession (-1)) 0 (-1) freshEvaluator))).
    + lia.
    + reflexivity.
  - apply (proj1 (proj2 (proj2 (session_index_out_of_range (X := specExtern) 0
                                  emptyModule (one_instr bcStoreSession (-1)) 0 (-1)
                                  (with_top (VInt 5))))
                    ltac:(lia) ltac:(reflexivity))
             [] (VInt 5)).
    reflexivity.
Defined.

Lemma local_store_then_load_witness :
  exists e1,
    step (X := specExtern) 0 emptyModule
      (mkprog "l" progRule 1 [BC bcStoreLocal 0; BC bcLoadLocal 0] [] [])
      0 (push (VInt 9) (entered ruleA VNull))
    = Ok (Break (mkprog "l" progRule 1 [BC bcStoreLocal 0; BC bcLoadLocal 0] [] [])
            0 e1) /\
    at_ (Stack e1) (localslot 0 (push (VInt 9) (entered ruleA VNull))) = Some (VInt 9).
Proof.
  destruct (local_store_then_load (X := specExtern) 0 emptyModule
              (mkprog "l" progRule 1 [BC bcStoreLocal 0; BC bcLoadLocal 0] [] [])
              0 1 0 (push (VInt 9) (entered ruleA VNull))
              (Stack (entered ruleA VNull)) (VInt 9)
              eq_refl eq_refl eq_refl
              ltac:(vm_compute; split; [discriminate | reflexivity]))
    as (e1 & H1 & _ & H3 & _).
  exists e1. split; assumption.
Defined.

(* ------------------------------------------------------------------------- *)
(** ** Pairs: assignment, then access *)

Section PairSetGet.
Context {X : Extern}.
Import ObjPair.

(** X18. Assigning a component of a pair and reading it back: after
    [IndexSet] succeeds, [Index] at the same index gives the value assigned,
    and the other component is the one the pair had; likewise for [DotSet]
    and [Dot] with the same field name. An assignment that is refused
    reports the error the access at that index or field reports. *)
Theorem pair_set_then_get :
  forall (p : Pair) (idx : Val) (name : string) (v : Val),
    (forall p', IndexSet p idx v = Ok p' ->
       Index p' idx = Ok v /\
       (Index p idx = Ok (First p) /\ Second p' = Second p \/
        Index p idx = Ok (Second p) /\ First p' = First p)) /\
    (forall p', DotSet p name v = Ok p' ->
       Dot p' name = Ok v /\
       (name = "first" /\ Second p' = Second p \/
        name = "second" /\ First p' = First p)) /\
    (forall msg, IndexSet p idx v = Err msg <-> Index p idx = Err msg) /\
    (forall msg, DotSet p name v = Err msg <-> Dot p name = Err msg).
Proof.
  intros p idx name v. split; [|split; [|split]].
  - intros p' H. unfold IndexSet, Index in *.
    destruct (ToIndex idx) as [i| | |]; cbn [bind] in *; try discriminate.
    destruct (i =? 0) eqn:E0.
    + apply Ok_inj in H. subst p'. cbn. auto.
    + destruct (i =? 1) eqn:E1; [|discriminate].
      apply Ok_inj in H. subst p'. cbn. auto.
  - intros p' H. unfold DotSet, Dot in *.
    destruct (String.eqb_spec name "first") as [E0|E0].
    + apply Ok_inj in H. subst p'. cbn. auto.
    + destruct (String.eqb_spec name "second") as [E1|E1]; [|discriminate].
      apply Ok_inj in H. subst p'. cbn. auto.
  - intros msg. unfold IndexSet, Index.
    destruct (ToIndex idx) as [i| | |]; cbn [bind];
      try (split; intros H; first [discriminate H | injection H as ->; reflexivity]).
    destruct (i =? 0); [split; discriminate|].
    destruct (i =? 1); [split; discriminate|].
    split; intros H; injection H as <-; reflexivity.
  - intros msg. unfold DotSet, Dot.
    destruct (String.eqb name "first"); [split; discriminate|].
    destruct (String.eqb name "second"); [split; discriminate|].
    split; intros H; injection H as <-; reflexivity.
Qed.

End PairSetGet.

(* ------------------------------------------------------------------------- *)
(** ** Comparisons and integer arithmetic *)

Section CompareFacts.
Context {X : Extern}.

(** X19. The comparison operators accept two numbers (int or real, mixed or
    not) or two strings, and then answer with a bool, [!=] with the opposite
    of [==]; on any other pair of operands, two nulls or two bools among
    them, each of the six is a script error. *)
Theorem comparisons_want_numbers_or_strings :
  forall (fuel : nat) (lhs rhs : Val),
    (comparable lhs rhs = true /\
     (forall op, cmp_op op = true ->
        exists b, doBin fuel lhs rhs op = Ok (VBool b)) /\
     (exists b, doBin fuel lhs rhs bcEq = Ok (VBool b) /\
                doBin fuel lhs rhs bcNe = Ok (VBool (negb b)))) \/
    (comparable lhs rhs = false /\
     (forall op, cmp_op op = true ->
        exists msg, doBin fuel lhs rhs op = Err msg)).
Proof.
  intros fuel lhs rhs.
  destruct (comparable lhs rhs) eqn:E; [left|right]; (split; [reflexivity|]).
  - split.
    + intros op Hop.
      destruct op; try discriminate Hop;
        destruct lhs, rhs; try discriminate E; cbn; eauto.
    + destruct lhs, rhs; try discriminate E; cbn; eauto.
  - intros op Hop.
    destruct op; try discriminate Hop;
      destruct lhs, rhs; try discriminate E; cbn; eauto.
Qed.

(** X20. Integer division truncates toward zero: for a divisor other than
    zero, [a / b] and [a % b] both succeed, the remainder is smaller in
    magnitude than the divisor and is zero or has the sign of the dividend,
    and [(a / b) * b + a % b] evaluates to [a] again, also for the one
    quotient that overflows. *)
Theorem int_division_truncates :
  forall (fuel : nat) (a b : Z),
    in_range a -> in_range b -> b <> 0 ->
    exists q r p,
      doBin fuel (VInt a) (VInt b) bcDiv = Ok (VInt q) /\
      doBin fuel (VInt a) (VInt b) bcMod = Ok (VInt r) /\
      Z.abs r < Z.abs b /\ (r = 0 \/ Z.sgn r = Z.sgn a) /\
      doBin fuel (VInt q) (VInt b) bcMul = Ok (VInt p) /\
      doBin fuel (VInt p) (VInt r) bcAdd = Ok (VInt a).
Proof.
  intros fuel a b Ha Hb Hnz.
  assert (Hr : Z.abs (Z.rem a b) < Z.abs b) by (apply Z.rem_bound_abs; exact Hnz).
  assert (Hrr : in_range (Z.rem a b))
    by (unfold in_range, min_int, max_int in *; lia).
  exists (Int64.quot a b), (Z.rem a b), (wrap64 (Int64.quot a b * b)).
  cbn [doBin Type_ ValType_eqb].
  replace (b =? 0) with false by (symmetry; apply Z.eqb_neq; exact Hnz).
  unfold Int64.rem. rewrite (wrap64_id _ Hrr).
  split; [reflexivity|]. split; [reflexivity|]. split; [exact Hr|].
  split.
  - destruct (Z.eq_dec (Z.rem a b) 0) as [E|E]; [left; exact E|right].
    apply Z.rem_sign_nz; assumption.
  - split; [reflexivity|]. f_equal. f_equal.
    unfold Int64.quot. rewrite wrap64_mul_l, wrap64_add_l.
    replace (Z.quot a b * b + Z.rem a b) with a
      by (rewrite Z.mul_comm; apply Z.quot_rem').
    apply wrap64_id. exact Ha.
Qed.

(** X21. Integer overflow wraps silently: [+], [-], [*] and the unary minus
    on ints always succeed with an int of the 64-bit range, equal to the
    exact result modulo 2^64, and never with a real or an error; so [-]
    undoes [+] and the unary minus undoes itself, also across an overflow. *)
Theorem int_overflow_wraps :
  forall (fuel : nat) (a b : Z),
    in_range a -> in_range b ->
    exists s d p n,
      doBin fuel (VInt a) (VInt b) bcAdd = Ok (VInt s) /\
      doBin fuel (VInt a) (VInt b) bcSub = Ok (VInt d) /\
      doBin fuel (VInt a) (VInt b) bcMul = Ok (VInt p) /\
      doNegate (VInt a) = Ok (VInt n) /\
      in_range s /\ in_range d /\ in_range p /\ in_range n /\
      (s - (a + b)) mod 2 ^ 64 = 0 /\ (d - (a - b)) mod 2 ^ 64 = 0 /\
      (p - a * b) mod 2 ^ 64 = 0 /\ (n + a) mod 2 ^ 64 = 0 /\
      doBin fuel (VInt s) (VInt b) bcSub = Ok (VInt a) /\
      doNegate (VInt n) = Ok (VInt a).
Proof.
  intros fuel a b Ha Hb.
  assert (Hmod : forall z, (wrap64 z - z) mod 2 ^ 64 = 0).
  { intros z. unfold wrap64.
    pose proof (Z.div_mod (z + 2 ^ 63) (2 ^ 64) ltac:(lia)) as H.
    set (q := (z + 2 ^ 63) / 2 ^ 64) in *.
    set (r := (z + 2 ^ 63) mod 2 ^ 64) in *.
    replace (r - 2 ^ 63 - z) with ((- q) * 2 ^ 64) by lia.
    apply Z.mod_mul. lia. }
  exists (wrap64 (a + b)), (wrap64 (a - b)), (wrap64 (a * b)), (wrap64 (- a)).
  cbn [doBin doNegate Type_ ValType_eqb].
  repeat (split; [first [reflexivity | apply wrap64_range | apply Hmod]|]).
  split; [|split].
  - replace (wrap64 (- a) + a) with (wrap64 (- a) - - a) by ring. apply Hmod.
  - f_equal. f_equal. change (wrap64 (a + b) - b) with (wrap64 (a + b) + - b).
    rewrite wrap64_add_l. replace (a + b + - b) with a by ring.
    apply wrap64_id. exact Ha.
  - f_equal. f_equal.
    replace (- wrap64 (- a)) with (wrap64 (- a) * -1) by ring.
    rewrite wrap64_mul_l. replace (- a * -1) with a by ring.
    apply wrap64_id. exact Ha.
Qed.

End CompareFacts.

Lemma int_division_truncates_witness :
  exists q r p,
    doBin (X := specExtern) 0 (VInt (-7)) (VInt 2) bcDiv = Ok (VInt q) /\
    doBin (X := specExtern) 0 (VInt (-7)) (VInt 2) bcMod = Ok (VInt r) /\
    Z.abs r < Z.abs 2 /\ (r = 0 \/ Z.sgn r = Z.sgn (-7)) /\
    doBin (X := specExtern) 0 (VInt q) (VInt 2) bcMul = Ok (VInt p) /\
    doBin (X := specExtern) 0 (VInt p) (VInt r) bcAdd = Ok (VInt (-7)).
Proof.
  apply (int_division_truncates (X := specExtern) 0 (-7) 2);
    unfold in_range, min_int, max_int; lia.
Defined.

Lemma int_overflow_wraps_witness :
  exists s,
    doBin (X := specExtern) 0 (VInt max_int) (VInt 1) bcAdd = Ok (VInt s) /\
    doBin (X := specExtern) 0 (VInt s) (VInt 1) bcSub = Ok (VInt max_int).
Proof.
  destruct (int_overflow_wraps (X := specExtern) 0 max_int 1
              ltac:(unfold in_range, min_int, max_int; lia)
              ltac:(unfold in_range, min_int, max_int; lia))
    as (s & d & p & n & H1 & _ & _ & _ & _ & _ & _ & _ & _ & _ & _ & _ & H2 & _).
  exists s. split; assumption.
Defined.

(* ------------------------------------------------------------------------- *)
(** ** Handlers and the top of the stack *)

Lemma with_curframe_id e f :
  f = curframe e -> with_curframe e f = e.
Proof. intros ->. destruct e. reflexivity. Qed.

Lemma with_excep_id f x : x = excep f -> with_excep f x = f.
Proof. intros ->. destruct f. reflexivity. Qed.

Section HandlerFacts.
Context {X : Extern}.

(** X22. [pushException h] registers a handler that records [h] and the
    size of the stack at that moment; [popException t] unregisters the
    innermost handler and jumps to [t], so that a push followed by a pop
    leaves the evaluator as it was. In a frame with no handler registered
    [popException] faults. *)
Theorem push_then_pop_exception :
  forall (fuel : nat) (m : Module_) (prog : program) (pc pc' h t : Z)
         (e : Evaluator),
    instr_at prog pc' bcPopException t ->
    (instr_at prog pc bcPushException h ->
     exists e1,
       step fuel m prog pc e = Ok (Break prog pc e1) /\
       curExcep e1 = Some {| handlerPc := h; stackSize_of := stackSize e |} /\
       Stack e1 = Stack e /\
       step fuel m prog pc' e1 = Ok (Break prog (t - 1) e)) /\
    (excep (curframe e) = [] ->
     step fuel m prog pc' e = Fault "slice bounds out of range").
Proof.
  intros fuel m prog pc pc' h t e Hpop. split.
  - intros Hpush. exists (pushExcep h (stackSize e) e).
    split; [|split; [|split]].
    + unfold step. rewrite Hpush. reflexivity.
    + apply curExcep_pushExcep.
    + reflexivity.
    + unfold step. rewrite Hpop. cbn [opcode_of argument].
      unfold popExcep, pushExcep. cbn [curframe with_curframe excep with_excep].
      destruct (excep (curframe e) ++ [_])%list eqn:E.
      * destruct (excep (curframe e)); discriminate E.
      * rewrite <- E. rewrite removelast_last. cbn [bind].
        do 2 f_equal. destruct e as [s ss c1 c2 ev f ce q i].
        destruct f. reflexivity.
  - intros Hnone. unfold step. rewrite Hpop. cbn [opcode_of argument].
    unfold popExcep. rewrite Hnone. reflexivity.
Qed.

(** X23. [swap] exchanges the two values on top of the stack and leaves
    what is below them, so that swapping twice restores the stack; with
    fewer than two values on the stack it faults. *)
Theorem swap_twice :
  forall (fuel : nat) (m : Module_) (prog : program) (pc a : Z) (e : Evaluator),
    instr_at prog pc bcSwap a ->
    (forall s x y, Stack e = (s ++ [x; y])%list ->
       step fuel m prog pc e
       = Ok (Break prog pc (with_Stack e (s ++ [y; x])%list)) /\
       step fuel m prog pc (with_Stack e (s ++ [y; x])%list)
       = Ok (Break prog pc e)) /\
    (stackSize e < 2 -> step fuel m prog pc e = Fault "index out of range").
Proof.
  intros fuel m prog pc a e Hi.
  assert (Hswap : forall e0 s x y, Stack e0 = (s ++ [x; y])%list ->
            step fuel m prog pc e0
            = Ok (Break prog pc (with_Stack e0 (s ++ [y; x])%list))).
  { intros e0 s x y Hs. unfold step. rewrite Hi. cbn [opcode_of argument].
    unfold stackSize. rewrite Hs, len_app. change (len [x; y]) with 2.
    replace (len s + 2 - 1) with (len s + 1) by lia.
    replace (len s + 2 - 2) with (len s) by lia.
    pose proof (len_nonneg s) as Hn.
    rewrite (at_app_r s [x; y] (len s + 1)) by lia.
    rewrite (at_app_r s [x; y] (len s)) by lia.
    replace (len s + 1 - len s) with 1 by lia.
    replace (len s - len s) with 0 by lia.
    cbn [at_ Z.ltb Z.compare Z.to_nat Pos.to_nat Pos.iter_op Nat.add nth_error].
    rewrite take_app_exact. reflexivity. }
  split.
  - intros s x y Hs. split; [apply Hswap; exact Hs|].
    rewrite (Hswap (with_Stack e (s ++ [y; x])%list) s y x eq_refl).
    do 2 f_equal. destruct e. cbn in *. subst. reflexivity.
  - intros Hlt. unfold step. rewrite Hi. cbn [opcode_of argument].
    unfold at_ at 2. pose proof (len_nonneg (Stack e)).
    destruct (at_ (Stack e) (stackSize e - 1)); [|reflexivity].
    replace (stackSize e - 2 <? 0) with true
      by (symmetry; apply Z.ltb_lt; lia).
    reflexivity.
Qed.

End HandlerFacts.

Lemma push_then_pop_exception_witness :
  exists e1,
    step (X := specExtern) 0 emptyModule try_prog 0 (entered try_prog VNull)
    = Ok (Break try_prog 0 e1) /\
    Stack e1 = Stack (entered try_prog VNull).
Proof.
  destruct (proj1 (push_then_pop_exception (X := specExtern) 0 emptyModule
                     try_prog 0 5 6 8 (entered try_prog VNull)
                     ltac:(vm_compute; reflexivity))
              ltac:(vm_compute; reflexivity))
    as (e1 & H1 & _ & H3 & _).
  exists e1. split; assumption.
Defined.

Lemma swap_twice_witness :
  (step (X := specExtern) 0 emptyModule (one_instr bcSwap 0) 0 two_on_stack
   = Ok (Break (one_instr bcSwap 0) 0
           (with_Stack two_on_stack ([] ++ [VInt 2; VInt 1])%list)) /\
   step (X := specExtern) 0 emptyModule (one_instr bcSwap 0) 0
     (with_Stack two_on_stack ([] ++ [VInt 2; VInt 1])%list)
   = Ok (Break (one_instr bcSwap 0) 0 two_on_stack)) /\
  step (X := specExtern) 0 emptyModule (one_instr bcSwap 0) 0 freshEvaluator
  = Fault "index out of range".
Proof.
  split.
  - apply (proj1 (swap_twice (X := specExtern) 0 emptyModule (one_instr bcSwap 0)
                    0 0 two_on_stack ltac:(vm_compute; reflexivity))
             [] (VInt 1) (VInt 2)).
    reflexivity.
  - apply (proj2 (swap_twice (X := specExtern) 0 emptyModule (one_instr bcSwap 0)
                    0 0 freshEvaluator ltac:(vm_compute; reflexivity))).
    vm_compute. reflexivity.
Defined.

(* ------------------------------------------------------------------------- *)
(** ** The loop of [EvalGlobal] and [EvalSession] *)

Section RunEachFacts.
Context {X : Extern}.

(** X24. The loop over the global, respectively session, programs runs
    them in order, each on the evaluator the one before left, and stops at
    the first one that reports an error: that error is the result, and the
    programs after it are not run. *)
Theorem run_each_stops_at_the_first_error :
  forall (fuel : nat) (m : Module_) (pre : list program) (p : program)
         (post : list program) (e e1 e2 : Evaluator) (v : Val) (er : error),
    run_each fuel m pre e = Ok (None, e1) ->
    run_each fuel m (pre ++ post) e = run_each fuel m post e1 /\
    (runRule fuel m VNull p e1 = Ok (v, Some er, e2) ->
     run_each fuel m (pre ++ p :: post) e = Ok (Some er, e2)).
Proof.
  intros fuel m pre p post e e1 e2 v er Hpre.
  assert (Happ : forall rest,
            run_each fuel m (pre ++ rest) e = run_each fuel m rest e1).
  { revert e Hpre. induction pre as [|q pre IH]; intros e Hpre rest.
    - cbn in Hpre. apply Ok_inj in Hpre. injection Hpre as ->. reflexivity.
    - cbn [app run_each] in *.
      destruct (runRule fuel m VNull q e) as [[[w err] e']| | |];
        cbn [bind] in *; try discriminate.
      destruct err; [apply Ok_inj in Hpre; discriminate|].
      apply IH. exact Hpre. }
  split; [apply Happ|].
  intros Hp. rewrite Happ. cbn [run_each]. rewrite Hp. reflexivity.
Qed.

End RunEachFacts.

Lemma run_each_stops_at_the_first_error_witness :
  exists er e2,
    run_each (X := specExtern) 20 emptyModule ([ruleB] ++ ruleDiv0 :: [ruleC])
      freshEvaluator
    = Ok (Some er, e2).
Proof.
  eexists. eexists.
  refine (proj2 (run_each_stops_at_the_first_error (X := specExtern) 20
                   emptyModule [ruleB] ruleDiv0 [ruleC] freshEvaluator _ _ _ _ _) _).
  - vm_compute. reflexivity.
  - vm_compute. reflexivity.
Defined.
